(** * The image-reference rewrite engine of [optimize-markdown.js]

    A shallow embedding of the [MarkdownOptimizer] class: the scanner
    ([analyzeImages]), the rewriter ([optimizeMarkdownImage],
    [optimizeHtmlImage], [optimizeAltText]) and the reassembler
    ([optimizeImageReferences]), the constructor's options, the
    command-line flags, [createBackup] and [processFile], together with the
    pieces of the JavaScript runtime they call (string methods, the
    backtracking regular-expression matcher, and the file system as an
    interface). *)

From Stdlib Require Import String Ascii.
From Stdlib Require Import List NArith ZArith Lia Bool Arith.
Import ListNotations.

Set Implicit Arguments.

(* ================================================================== *)
(** * JavaScript strings *)
(* ================================================================== *)

(** A JavaScript string is a sequence of UTF-16 code units. *)
Definition jsstring := list N.

Definition ch (a : ascii) : N := N_of_ascii a.
Arguments ch a%_char_scope.

(** [js "..."] is the string literal made of the given ASCII characters. *)
Definition js (s : string) : jsstring := map N_of_ascii (list_ascii_of_string s).
Arguments js s%_string_scope.

(** The double quote and the line feed, which the literals below need. *)
Definition dq : N := 34.
Definition nl : N := 10.

(** [a === b] on strings. *)
Fixpoint strEq (a b : jsstring) : bool :=
  match a, b with
  | [], [] => true
  | x :: a', y :: b' => (x =? y)%N && strEq a' b'
  | _, _ => false
  end.

(** [s.startsWith(p)] *)
Fixpoint startsWith (s p : jsstring) {struct p} : bool :=
  match p, s with
  | [], _ => true
  | a :: p', b :: s' => (b =? a)%N && startsWith s' p'
  | _ :: _, [] => false
  end.

(** [s.indexOf(p)], with [None] for -1. *)
Fixpoint indexOf (s p : jsstring) : option nat :=
  if startsWith s p then Some 0
  else match s with
       | [] => None
       | _ :: s' => option_map S (indexOf s' p)
       end.

(** [s.includes(p)] *)
Definition includes (s p : jsstring) : bool :=
  match indexOf s p with Some _ => true | None => false end.

(** Relative index resolution shared by [slice]'s two arguments: a negative
    index counts from the end, and the result is clamped to [0, len]. *)
Definition relIndex (len k : Z) : Z :=
  if (k <? 0)%Z then Z.max (len + k) 0 else Z.min k len.

(** [s.slice(from, to)]; [to = None] is the one-argument form. *)
Definition slice (s : jsstring) (from : Z) (to : option Z) : jsstring :=
  let len := Z.of_nat (length s) in
  let i := relIndex len from in
  let j := match to with None => len | Some e => relIndex len e end in
  firstn (Z.to_nat (j - i)) (skipn (Z.to_nat i) s).

(** [s.charAt(i)]: a string of one code unit, or the empty string. *)
Definition charAt (s : jsstring) (i : nat) : jsstring :=
  match nth_error s i with Some c => [c] | None => [] end.

(** White space and line terminators: the code units matched by [\s] and
    removed by [trim]. *)
Definition isWhiteSpace (c : N) : bool :=
  ((9 <=? c) && (c <=? 13) || (c =? 32) || (c =? 160) || (c =? 5760)
   || (8192 <=? c) && (c <=? 8202) || (c =? 8232) || (c =? 8233)
   || (c =? 8239) || (c =? 8287) || (c =? 12288) || (c =? 65279))%N.

Fixpoint dropWhile (f : N -> bool) (s : jsstring) : jsstring :=
  match s with
  | [] => []
  | c :: s' => if f c then dropWhile f s' else s
  end.

(** [s.trim()] *)
Definition trim (s : jsstring) : jsstring :=
  rev (dropWhile isWhiteSpace (rev (dropWhile isWhiteSpace s))).

(** [s.replace(p, r)] for a string pattern: the first occurrence only. *)
Definition replaceStr (s p r : jsstring) : jsstring :=
  match indexOf s p with
  | None => s
  | Some i => firstn i s ++ r ++ skipn (i + length p) s
  end.

(* ================================================================== *)
(** * Regular expressions *)
(* ================================================================== *)

(** The pattern syntax the program's five regular expressions use. *)
Inductive ClassAtom :=
| CaChar (c : N)          (* a single character *)
| CaSpace.                (* \s *)

Inductive Regex :=
| REmpty
| RChar (c : N)
| RClass (negated : bool) (atoms : list ClassAtom)
| RBol                    (* ^ *)
| REol                    (* $ *)
| RSeq (r1 r2 : Regex)
| RAlt (r1 r2 : Regex)
| RStar (r : Regex)       (* greedy r* *)
| RPlus (r : Regex)       (* greedy r+ *)
| RGroup (n : nat) (r : Regex).

Fixpoint seqs (rs : list Regex) : Regex :=
  match rs with
  | [] => REmpty
  | r :: rs' => RSeq r (seqs rs')
  end.

Fixpoint alts (r : Regex) (rs : list Regex) : Regex :=
  match rs with
  | [] => r
  | r' :: rs' => RAlt r (alts r' rs')
  end.

(** A run of literal characters. *)
Definition lit (s : jsstring) : Regex := seqs (map RChar s).

(** Canonicalisation under the [i] flag.  The runtime upper-cases a code
    unit through the Unicode tables but keeps a non-ASCII unit that would map
    into ASCII; every character written in the program's patterns is ASCII,
    so a comparison against them only ever depends on the ASCII letters. *)
Definition canonicalize (ignoreCase : bool) (c : N) : N :=
  if (ignoreCase && (97 <=? c) && (c <=? 122))%N then (c - 32)%N else c.

Definition atomMatches (ic : bool) (c : N) (a : ClassAtom) : bool :=
  match a with
  | CaChar d => (canonicalize ic c =? canonicalize ic d)%N
  | CaSpace => isWhiteSpace c
  end.

(** The matcher state: the index reached, the input from there on, and the
    capture groups closed so far (most recent first). *)
Record MState := mkState {
  endIndex : nat;
  remaining : jsstring;
  captures : list (nat * jsstring)
}.

(** Greedy iteration.  An iteration that consumes nothing is rejected, so
    at most [length (remaining x)] iterations happen and a budget of one
    more is never exhausted ([star_fuel]). *)
Fixpoint star (m : MState -> list MState) (fuel : nat) (x : MState)
  : list MState :=
  match fuel with
  | O => [x]
  | S fuel' =>
      flat_map (fun y =>
                  if length (remaining y) <? length (remaining x)
                  then star m fuel' y else [])
               (m x)
      ++ [x]
  end.

(** [run ic r x] lists, in the order backtracking explores them, the states
    in which a match of [r] started in [x] can end. *)
Fixpoint run (ic : bool) (r : Regex) (x : MState) : list MState :=
  match r with
  | REmpty => [x]
  | RChar c =>
      match remaining x with
      | d :: t =>
          if (canonicalize ic d =? canonicalize ic c)%N
          then [mkState (S (endIndex x)) t (captures x)] else []
      | [] => []
      end
  | RClass negated atoms =>
      match remaining x with
      | d :: t =>
          if xorb negated (existsb (atomMatches ic d) atoms)
          then [mkState (S (endIndex x)) t (captures x)] else []
      | [] => []
      end
  | RBol => if endIndex x =? 0 then [x] else []
  | REol => match remaining x with [] => [x] | _ :: _ => [] end
  | RSeq r1 r2 => flat_map (run ic r2) (run ic r1 x)
  | RAlt r1 r2 => run ic r1 x ++ run ic r2 x
  | RStar r' => star (run ic r') (S (length (remaining x))) x
  | RPlus r' =>
      flat_map (fun y => star (run ic r') (S (length (remaining y))) y)
               (run ic r' x)
  | RGroup n r' =>
      map (fun y =>
             mkState (endIndex y) (remaining y)
                     ((n, firstn (endIndex y - endIndex x) (remaining x))
                        :: captures y))
          (run ic r' x)
  end.

(** A regular-expression object: pattern and flags. *)
Record RegExp := mkRegExp {
  pattern : Regex;
  ignoreCase : bool;
  global : bool
}.

(** What [exec] returns on success; [m_lastIndex] is the index just past
    the match, which a global expression stores in [lastIndex]. *)
Record MatchResult := mkMatch {
  m_index : nat;
  m_full : jsstring;
  m_captures : list (nat * jsstring);
  m_lastIndex : nat
}.

(** [group k m] is [m[k]].  A group that took no part in the match reads as
    the empty string here; the groups of the program's expressions always
    take part. *)
Definition group (k : nat) (m : MatchResult) : jsstring :=
  match find (fun p => fst p =? k) (m_captures m) with
  | Some (_, s) => s
  | None => []
  end.

(** Try every start index from [i] on, [rest] being the input from [i]. *)
Fixpoint searchFrom (re : RegExp) (i : nat) (rest : jsstring)
  : option MatchResult :=
  match run (ignoreCase re) (pattern re) (mkState i rest []) with
  | y :: _ =>
      Some (mkMatch i (firstn (endIndex y - i) rest) (captures y) (endIndex y))
  | [] =>
      match rest with
      | [] => None
      | _ :: rest' => searchFrom re (S i) rest'
      end
  end.

(** [re.exec(input)] with the search starting at [lastIndex]. *)
Definition exec (re : RegExp) (input : jsstring) (lastIndex : nat)
  : option MatchResult :=
  if length input <? lastIndex then None
  else searchFrom re lastIndex (skipn lastIndex input).

(** [while ((match = re.exec(input)) !== null) ...] for a global [re]: the
    successive matches.  Each match of the program's global expressions is
    non-empty, so [lastIndex] grows and [S (length input)] rounds are never
    used up ([whileExec_fuel]). *)
Fixpoint whileExec (fuel : nat) (re : RegExp) (input : jsstring)
  (lastIndex : nat) : list MatchResult :=
  match fuel with
  | O => []
  | S fuel' =>
      match exec re input lastIndex with
      | None => []
      | Some m => m :: whileExec fuel' re input (m_lastIndex m)
      end
  end.

(** [s.replace(re, r)] for an expression without the [g] flag and a
    replacement without [$]: the first match only, searched from 0. *)
Definition replaceRe (s : jsstring) (re : RegExp) (r : jsstring) : jsstring :=
  match exec re s 0 with
  | None => s
  | Some m => firstn (m_index m) s ++ r ++ skipn (m_index m + length (m_full m)) s
  end.

(* ================================================================== *)
(** * The optimizer *)
(* ================================================================== *)

(** [this.options], with the defaults the constructor installs. *)
Module Options.
Record t := mk {
  addLazyLoading : bool;
  useWebP : bool;
  addDimensions : bool;
  optimizeAltText : bool;
  backupFiles : bool
}.
Definition default : t := mk true true true true true.
End Options.

(** [this.stats] *)
Module Stats.
Record t := mk {
  filesProcessed : nat;
  imagesOptimized : nat;
  backupsCreated : nat
}.
Definition initial : t := mk 0 0 0.
End Stats.

(** The objects [analyzeImages] pushes: [{type: 'markdown', full, alt, src,
    index}] and [{type: 'html', full, src, index}]. *)
Inductive Image :=
| MarkdownImage (full alt src : jsstring) (index : nat)
| HtmlImage (full src : jsstring) (index : nat).

Definition full (image : Image) : jsstring :=
  match image with
  | MarkdownImage f _ _ _ => f
  | HtmlImage f _ _ => f
  end.

Definition src (image : Image) : jsstring :=
  match image with
  | MarkdownImage _ _ s _ => s
  | HtmlImage _ s _ => s
  end.

Definition index (image : Image) : nat :=
  match image with
  | MarkdownImage _ _ _ i => i
  | HtmlImage _ _ i => i
  end.

Definition isMarkdown (image : Image) : bool :=
  match image with
  | MarkdownImage _ _ _ _ => true
  | HtmlImage _ _ _ => false
  end.

Definition white : Regex := RClass false [CaSpace].
Definition noneOf (s : jsstring) : Regex := RClass true (map CaChar s).
Definition oneOf (s : jsstring) : Regex := RClass false (map CaChar s).

(** The expression [imageRegex] of [analyzeImages], flag [g]; token by
    token:  !  \[  ( [^\]]* )  \]  \(  ( [^)]+ )  \)  *)
Definition imageRegex : RegExp :=
  mkRegExp
    (seqs [ RChar (ch "!"); RChar (ch "[");
            RGroup 1 (RStar (noneOf (js "]")));
            RChar (ch "]"); RChar (ch "(");
            RGroup 2 (RPlus (noneOf (js ")")));
            RChar (ch ")") ])
    false true.

(** The expression [htmlImageRegex] of [analyzeImages], flags [gi]; token
    by token, with Q for the class of the two quote characters and N for
    its complement:  <img  \s+  [^>]*  src  \s*  =  \s*  Q  ( N+ )  Q
    [^>]*  > *)
Definition htmlImageRegex : RegExp :=
  mkRegExp
    (seqs [ lit (js "<img"); RPlus white;
            RStar (noneOf (js ">"));
            lit (js "src"); RStar white; RChar (ch "="); RStar white;
            oneOf (dq :: js "'");
            RGroup 1 (RPlus (noneOf (dq :: js "'")));
            oneOf (dq :: js "'");
            RStar (noneOf (js ">")); RChar (ch ">") ])
    true true.

(** [/\.(png|jpg|jpeg)$/i] *)
Definition webpExtensionRegex : RegExp :=
  mkRegExp
    (seqs [ RChar (ch ".");
            RGroup 1 (alts (lit (js "png")) [lit (js "jpg"); lit (js "jpeg")]);
            REol ])
    true false.

(** [/^(image|picture|photo|screenshot) (of|showing) /i] *)
Definition redundantWordsRegex : RegExp :=
  mkRegExp
    (seqs [ RBol;
            RGroup 1 (alts (lit (js "image"))
                           [lit (js "picture"); lit (js "photo");
                            lit (js "screenshot")]);
            RChar (ch " ");
            RGroup 2 (alts (lit (js "of")) [lit (js "showing")]);
            RChar (ch " ") ])
    true false.

(** [/\.(png|jpg|jpeg|gif)$/i] *)
Definition altExtensionRegex : RegExp :=
  mkRegExp
    (seqs [ RChar (ch ".");
            RGroup 1 (alts (lit (js "png"))
                           [lit (js "jpg"); lit (js "jpeg"); lit (js "gif")]);
            REol ])
    true false.

(** [analyzeImages(content)]: the markdown images, then the HTML images. *)
Definition analyzeImages (content : jsstring) : list Image :=
  map (fun m => MarkdownImage (m_full m) (group 1 m) (group 2 m) (m_index m))
      (whileExec (S (length content)) imageRegex content 0)
  ++
  map (fun m => HtmlImage (m_full m) (group 1 m) (m_index m))
      (whileExec (S (length content)) htmlImageRegex content 0).

(** The test [optimizeMarkdownImage] stores in [isAssetImage]. *)
Definition isAssetImage (src : jsstring) : bool :=
  startsWith src (js "./assets/") || startsWith src (js "../assets/")
  || includes src (js "/assets/").

Section Optimizer.

(** Upper-casing of a code unit outside ASCII goes through the runtime's
    Unicode case tables, which are not part of the program: they are a
    parameter here.  (One unit can map to several, as U+00DF does.) *)
Variable unicodeUpper : N -> jsstring.

(** [s.toUpperCase()], exact on the strings of at most one code unit the
    program applies it to. *)
Definition toUpperCase (s : jsstring) : jsstring :=
  flat_map (fun c => if (c <? 128)%N then [canonicalize true c]
                     else unicodeUpper c) s.

Variable options : Options.t.

(** [optimizeAltText(alt)] *)
Definition optimizeAltText (alt : jsstring) : jsstring :=
  if strEq alt [] || negb (Options.optimizeAltText options) then alt
  else
    let optimized :=
      trim (replaceRe (replaceRe alt redundantWordsRegex [])
                      altExtensionRegex [])
    in
    if negb (strEq optimized [])
    then toUpperCase (charAt optimized 0) ++ slice optimized 1 None
    else optimized.

(** [optimizeMarkdownImage(alt, src)] *)
Definition optimizeMarkdownImage (alt src : jsstring) : jsstring :=
  if negb (isAssetImage src)
  then js "![" ++ alt ++ js "](" ++ src ++ js ")"
  else
    let webpSrc := replaceRe src webpExtensionRegex (js ".webp") in
    let optimizedAlt := optimizeAltText alt in
    js "<picture>" ++ [nl]
    ++ js "  <source srcset=" ++ [dq] ++ webpSrc ++ [dq]
    ++ js " type=" ++ [dq] ++ js "image/webp" ++ [dq] ++ js ">" ++ [nl]
    ++ js "  <img src=" ++ [dq] ++ src ++ [dq]
    ++ js " alt=" ++ [dq] ++ optimizedAlt ++ [dq]
    ++ js " loading=" ++ [dq] ++ js "lazy" ++ [dq]
    ++ js " style=" ++ [dq] ++ js "max-width: 100%; height: auto;" ++ [dq]
    ++ js ">" ++ [nl]
    ++ js "</picture>".

(** [optimizeHtmlImage(imgTag, src)] *)
Definition optimizeHtmlImage (imgTag src : jsstring) : jsstring :=
  let hasLazyLoading := includes imgTag (js "loading=") in
  let hasWebP :=
    includes imgTag (js "<picture>") || includes imgTag (js "srcset") in
  if hasLazyLoading && hasWebP then imgTag
  else
    let imgTag :=
      if negb hasLazyLoading && Options.addLazyLoading options
      then replaceStr imgTag (js "<img")
             (js "<img loading=" ++ [dq] ++ js "lazy" ++ [dq])
      else imgTag in
    let imgTag :=
      if negb (includes imgTag (js "style="))
         && negb (includes imgTag (js "max-width"))
      then replaceStr imgTag (js "<img")
             (js "<img style=" ++ [dq]
              ++ js "max-width: 100%; height: auto;" ++ [dq])
      else imgTag in
    imgTag.

(** What the rewriter makes of one scanned image. *)
Definition optimizeImage (image : Image) : jsstring :=
  match image with
  | MarkdownImage _ alt src _ => optimizeMarkdownImage alt src
  | HtmlImage full src _ => optimizeHtmlImage full src
  end.

(** The variables the loop of [optimizeImageReferences] updates. *)
Record Reassembly := mkReassembly {
  optimizedContent : jsstring;
  offset : Z;
  stats : Stats.t
}.

Definition countOptimized (s : Stats.t) : Stats.t :=
  Stats.mk (Stats.filesProcessed s) (S (Stats.imagesOptimized s))
           (Stats.backupsCreated s).

(** One round of [for (const image of images)]. *)
Definition reassemble (st : Reassembly) (image : Image) : Reassembly :=
  let optimized := optimizeImage image in
  if negb (strEq optimized (full image)) then
    let adjustedIndex := (Z.of_nat (index image) + offset st)%Z in
    mkReassembly
      (slice (optimizedContent st) 0 (Some adjustedIndex)
       ++ optimized
       ++ slice (optimizedContent st)
                (adjustedIndex + Z.of_nat (length (full image))) None)
      (offset st
       + (Z.of_nat (length optimized) - Z.of_nat (length (full image))))%Z
      (countOptimized (stats st))
  else st.

(** [optimizeImageReferences(content)]: the new content, and [this.stats]
    after the call. *)
Definition optimizeImageReferences (stats0 : Stats.t) (content : jsstring)
  : jsstring * Stats.t :=
  let final :=
    fold_left reassemble (analyzeImages content)
              (mkReassembly content 0 stats0) in
  (optimizedContent final, stats final).

End Optimizer.

(* ================================================================== *)
(** * The alt-text steps in the specification's words *)
(* ================================================================== *)

(** The four steps of the alt-text rule, written with plain string
    operations instead of regular expressions; [optimizeAltText] is compared
    with their composition below. *)

Definition lowerAscii (c : N) : N :=
  if ((65 <=? c) && (c <=? 90))%N then (c + 32)%N else c.

Definition sameIgnoringCase (a b : N) : bool :=
  (lowerAscii a =? lowerAscii b)%N.

Fixpoint equalIgnoringCase (s t : jsstring) : bool :=
  match s, t with
  | [], [] => true
  | a :: s', b :: t' => sameIgnoringCase a b && equalIgnoringCase s' t'
  | _, _ => false
  end.

Definition startsWithIgnoringCase (s p : jsstring) : bool :=
  equalIgnoringCase (firstn (length p) s) p.

Definition endsWithIgnoringCase (s p : jsstring) : bool :=
  equalIgnoringCase (skipn (length s - length p) s) p.

(** [(image|picture|photo|screenshot) (of|showing) ], spelled out. *)
Definition redundantPrefixes : list jsstring :=
  flat_map (fun word =>
              map (fun link => word ++ js " " ++ link ++ js " ")
                  [js "of"; js "showing"])
           [js "image"; js "picture"; js "photo"; js "screenshot"].

Definition imageExtensions : list jsstring :=
  [js ".png"; js ".jpg"; js ".jpeg"; js ".gif"].

(** Step 1: strip a leading prefix, if present. *)
Definition stripRedundantPrefix (alt : jsstring) : jsstring :=
  match find (startsWithIgnoringCase alt) redundantPrefixes with
  | Some p => skipn (length p) alt
  | None => alt
  end.

(** Step 2: strip a trailing extension, if the text ends with one. *)
Definition stripImageExtension (alt : jsstring) : jsstring :=
  match find (endsWithIgnoringCase alt) imageExtensions with
  | Some e => firstn (length alt - length e) alt
  | None => alt
  end.

(** Step 4: capitalise the first character of a non-empty text. *)
Definition capitalizeFirst (unicodeUpper : N -> jsstring) (s : jsstring)
  : jsstring :=
  match s with
  | [] => []
  | c :: t => toUpperCase unicodeUpper [c] ++ t
  end.

(** The rule as a whole; step 3 is [trim]. *)
Definition altTextSteps (unicodeUpper : N -> jsstring) (options : Options.t)
  (alt : jsstring) : jsstring :=
  match alt with
  | [] => alt
  | _ :: _ =>
      if Options.optimizeAltText options
      then capitalizeFirst unicodeUpper
             (trim (stripImageExtension (stripRedundantPrefix alt)))
      else alt
  end.

(* ================================================================== *)
(** * Notions used in the statements and proofs *)
(* ================================================================== *)

(** [y] is reached from [x] by consuming a prefix of what [x] had left. *)
Definition consumed (x y : MState) (w : jsstring) : Prop :=
  remaining x = w ++ remaining y /\ endIndex y = endIndex x + length w.

Definition extends (x y : MState) : Prop := exists w, consumed x y w.

(** Membership of a character in a class. *)
Definition inClass (ic negated : bool) (atoms : list ClassAtom) (d : N) : bool :=
  xorb negated (existsb (atomMatches ic d) atoms).

(** Patterns that cannot match the empty string. *)
Fixpoint nonEmpty (r : Regex) : bool :=
  match r with
  | RChar _ | RClass _ _ => true
  | RSeq r1 r2 => nonEmpty r1 || nonEmpty r2
  | RAlt r1 r2 => nonEmpty r1 && nonEmpty r2
  | RPlus r' | RGroup _ r' => nonEmpty r'
  | REmpty | RBol | REol | RStar _ => false
  end.

(** [matchesPrefix ic s p]: [s] starts with [p], up to canonicalisation. *)
Fixpoint matchesPrefix (ic : bool) (s p : jsstring) {struct p} : bool :=
  match p, s with
  | [], _ => true
  | c :: p', d :: s' =>
      (canonicalize ic d =? canonicalize ic c)%N && matchesPrefix ic s' p'
  | _ :: _, [] => false
  end.

(** The state after consuming [k] characters from [x]. *)
Definition advanced (k : nat) (x : MState) : MState :=
  mkState (endIndex x + k) (skipn k (remaining x)) (captures x).

(** The input is used up. *)
Definition isNil (s : jsstring) : bool :=
  match s with [] => true | _ :: _ => false end.

(** The text is one of the extensions, whatever the case of its letters. *)
Definition isExtension (s : jsstring) : bool :=
  existsb (equalIgnoringCase s) imageExtensions.

(** [cutAtSuffix p s] removes the leftmost suffix of [s] that satisfies
    [p], if there is one. *)
Fixpoint cutAtSuffix (p : jsstring -> bool) (s : jsstring) : jsstring :=
  if p s then []
  else match s with
       | [] => []
       | c :: t => c :: cutAtSuffix p t
       end.

(** The test [optimized !== full] of the loop. *)
Definition changed (unicodeUpper : N -> jsstring) (options : Options.t)
  (image : Image) : bool :=
  negb (strEq (optimizeImage unicodeUpper options image) (full image)).

(** [attr name value] is the text [name="value"]. *)
Definition attr (name value : jsstring) : jsstring :=
  name ++ js "=" ++ [dq] ++ value ++ [dq].

(** The style insertion of [optimizeHtmlImage], on its own. *)
Definition withResponsiveStyle (imgTag : jsstring) : jsstring :=
  replaceStr imgTag (js "<img")
    (js "<img " ++ attr (js "style") (js "max-width: 100%; height: auto;")).

(** A case table that leaves every code unit outside ASCII alone, for the
    examples, none of which upper-cases such a unit. *)
Definition plainUpper (c : N) : jsstring := [c].

(** [scan_in H] evaluates the scanner in [H : In image (analyzeImages d)]
    for a concrete document [d]. *)
Ltac scan_in H :=
  match type of H with
  | In _ ?l =>
      let v := eval vm_compute in l in
      let E := fresh "E" in
      assert (E : l = v) by (vm_compute; reflexivity);
      rewrite E in H; clear E
  end.

(* ================================================================== *)
(** * The constructor and the command line *)
(* ================================================================== *)

(** The [options] argument of the constructor: what the caller set. *)
Module Overrides.
Record t := mk {
  addLazyLoading : option bool;
  useWebP : option bool;
  addDimensions : option bool;
  optimizeAltText : option bool;
  backupFiles : option bool
}.
End Overrides.

(** [this.options = { ...defaults, ...options }]: every default is [true]. *)
Definition constructorOptions (options : Overrides.t) : Options.t :=
  let merged (o : option bool) := match o with Some b => b | None => true end in
  Options.mk (merged (Overrides.addLazyLoading options))
             (merged (Overrides.useWebP options))
             (merged (Overrides.addDimensions options))
             (merged (Overrides.optimizeAltText options))
             (merged (Overrides.backupFiles options)).

(** The command line: [args.includes(flag)] for the three flags. *)
Definition cliOverrides (args : list jsstring) : Overrides.t :=
  let flag (f : jsstring) :=
    if existsb (strEq f) args then Some false else None in
  Overrides.mk (flag (js "--no-lazy")) (flag (js "--no-webp")) None None
               (flag (js "--no-backup")).

Definition cliOptions (args : list jsstring) : Options.t :=
  constructorOptions (cliOverrides args).

(* ================================================================== *)
(** * Backups and files *)
(* ================================================================== *)

(** [s.replace(re, r)] for an expression with the [g] flag whose matches
    are not empty, and a replacement without [$]: every match, from left to
    right. *)
Fixpoint substituted (r rest : jsstring) (from : nat) (ms : list MatchResult)
  : jsstring :=
  match ms with
  | [] => rest
  | m :: more =>
      firstn (m_index m - from) rest ++ r
      ++ substituted r (skipn (m_index m - from + length (m_full m)) rest)
           (m_index m + length (m_full m)) more
  end.

Definition replaceAllRe (s : jsstring) (re : RegExp) (r : jsstring) : jsstring :=
  substituted r s 0 (whileExec (S (length s)) re s 0).

(** [/:/g] *)
Definition colonRegex : RegExp := mkRegExp (RChar (ch ":")) false true.

(** What a call into the runtime gives: a value, or an error thrown with a
    message. *)
Inductive Outcome (A : Type) : Type :=
| Returns (a : A)
| Throws (message : jsstring).
Arguments Throws {A} message.

(** The part of the Node runtime that [createBackup] and [processFile]
    call: the file system, the clock and two functions of [path].  The
    world holds the files and the clock.  A call that can change the world
    gives the world after the call and, if it threw, the message of the
    error. *)
Record Runtime := {
  World : Type;
  existsSync : World -> jsstring -> bool;
  readFileSync : World -> jsstring -> Outcome jsstring;
  mkdirSync : World -> jsstring -> World * option jsstring;
  copyFileSync : World -> jsstring -> jsstring -> World * option jsstring;
  writeFileSync : World -> jsstring -> jsstring -> World * option jsstring;
  toISOString : World -> jsstring;
  basename : jsstring -> jsstring;
  join : jsstring -> jsstring -> jsstring
}.

(** The lines [processFile] prints, with the values it puts in them. *)
Inductive ConsoleLine :=
| Processing (filePath : jsstring)
| NoImagesFound
| OptimizedImages (originalImageCount : nat)
| AlreadyOptimized
| ErrorProcessing (filePath message : jsstring).

Section Files.
Variable rt : Runtime.
Variable unicodeUpper : N -> jsstring.
Variable options : Options.t.

(** The world, [this.stats] and the console. *)
Record Session := mkSession {
  world : World rt;
  counters : Stats.t;
  console : list ConsoleLine
}.

Definition backupDir : jsstring := js "./markdown-backup".

(** [if (!fs.existsSync(backupDir)) fs.mkdirSync(backupDir, ...)] *)
Definition ensureBackupDir (w : World rt) : World rt * option jsstring :=
  if negb (existsSync rt w backupDir) then mkdirSync rt w backupDir
  else (w, None).

(** The [backupPath] of [createBackup], the clock being read in [w]. *)
Definition backupPath (w : World rt) (filePath : jsstring) : jsstring :=
  let fileName := basename rt filePath in
  let timestamp :=
    replaceAllRe (slice (toISOString rt w) 0 (Some 19%Z)) colonRegex (js "-") in
  join rt backupDir (fileName ++ js "." ++ timestamp ++ js ".backup").

Definition countBackup (s : Stats.t) : Stats.t :=
  Stats.mk (Stats.filesProcessed s) (Stats.imagesOptimized s)
           (S (Stats.backupsCreated s)).

Definition countFile (s : Stats.t) : Stats.t :=
  Stats.mk (S (Stats.filesProcessed s)) (Stats.imagesOptimized s)
           (Stats.backupsCreated s).

(** [createBackup(filePath)]: the world and [this.stats] after the call,
    and the message of the error it threw, if any. *)
Definition createBackup (filePath : jsstring) (w : World rt) (stats0 : Stats.t)
  : World rt * Stats.t * option jsstring :=
  if negb (Options.backupFiles options) then (w, stats0, None)
  else
    match ensureBackupDir w with
    | (w1, Some message) => (w1, stats0, Some message)
    | (w1, None) =>
        match copyFileSync rt w1 filePath (backupPath w1 filePath) with
        | (w2, Some message) => (w2, stats0, Some message)
        | (w2, None) => (w2, countBackup stats0, None)
        end
    end.

Definition print (line : ConsoleLine) (s : Session) : Session :=
  mkSession (world s) (counters s) (console s ++ [line]).

(** [processFile(filePath)], with its [try] and [catch]. *)
Definition processFile (filePath : jsstring) (s : Session) : Session :=
  let s := print (Processing filePath) s in
  match readFileSync rt (world s) filePath with
  | Throws message => print (ErrorProcessing filePath message) s
  | Returns content =>
      let originalImageCount := length (analyzeImages content) in
      if originalImageCount =? 0 then print NoImagesFound s
      else
        match createBackup filePath (world s) (counters s) with
        | (w1, stats1, Some message) =>
            print (ErrorProcessing filePath message)
                  (mkSession w1 stats1 (console s))
        | (w1, stats1, None) =>
            let (optimizedContent, stats2) :=
              optimizeImageReferences unicodeUpper options stats1 content in
            if negb (strEq optimizedContent content) then
              match writeFileSync rt w1 filePath optimizedContent with
              | (w2, Some message) =>
                  print (ErrorProcessing filePath message)
                        (mkSession w2 stats2 (console s))
              | (w2, None) =>
                  mkSession w2 (countFile stats2)
                            (console s ++ [OptimizedImages originalImageCount])
              end
            else
              mkSession w1 (countFile stats2)
                        (console s ++ [AlreadyOptimized])
        end
  end.

End Files.

(** [fs.writeFileSync(p, s, 'utf8')] stores the UTF-8 encoding of [s] and
    [fs.readFileSync(p, 'utf8')] decodes it: a string comes back as it was
    exactly when it is well-formed UTF-16, every high surrogate being
    followed by a low one and no low surrogate standing alone (a lone
    surrogate is stored as U+FFFD). *)
Definition isHighSurrogate (c : N) : bool := ((55296 <=? c) && (c <=? 56319))%N.
Definition isLowSurrogate (c : N) : bool := ((56320 <=? c) && (c <=? 57343))%N.

Fixpoint wellFormed (s : jsstring) : bool :=
  match s with
  | [] => true
  | c :: t =>
      if isHighSurrogate c then
        match t with
        | d :: t' => isLowSurrogate d && wellFormed t'
        | [] => false
        end
      else negb (isLowSurrogate c) && wellFormed t
  end.

(** What is expected of the file system, for the calls that did not throw.
    [plain p]: the path names a plain file, or a name free for one, that
    the process may read and write and that nothing else changes (no
    device, pipe or directory).  [sameFile p q]: the two paths may name one
    file (the same path written otherwise, a link).  A plain file reads
    back the well-formed text written to it and what was copied onto it,
    and a call leaves what could be read from the other plain files as it
    was. *)
Record FileLaws (rt : Runtime) (plain : jsstring -> Prop)
  (sameFile : jsstring -> jsstring -> Prop) : Prop := {
  sameFile_sym : forall p q, sameFile p q -> sameFile q p;
  read_written :
    forall w p c w',
      plain p -> wellFormed c = true ->
      writeFileSync rt w p c = (w', None) ->
      readFileSync rt w' p = Returns c;
  read_beside_written :
    forall w p c w' q c0,
      plain q -> ~ sameFile q p ->
      writeFileSync rt w p c = (w', None) ->
      readFileSync rt w q = Returns c0 ->
      readFileSync rt w' q = Returns c0;
  read_copied :
    forall w a b w' c0,
      plain a -> plain b -> ~ sameFile a b ->
      copyFileSync rt w a b = (w', None) ->
      readFileSync rt w a = Returns c0 ->
      readFileSync rt w' b = Returns c0;
  read_beside_copied :
    forall w a b w' q c0,
      plain q -> ~ sameFile q b ->
      copyFileSync rt w a b = (w', None) ->
      readFileSync rt w q = Returns c0 ->
      readFileSync rt w' q = Returns c0;
  read_after_mkdir :
    forall w d w' q c0,
      plain q ->
      mkdirSync rt w d = (w', None) ->
      readFileSync rt w q = Returns c0 ->
      readFileSync rt w' q = Returns c0
}.

(** A file system in memory, for the examples: files by path, the paths
    being compared as they are written, the directories made, a clock that
    stands still; nothing fails but reading or copying a file that is not
    there.  Its [basename] and [join] give what [path.basename] and
    [path.join] give on the paths of the examples: no [..] segment, no
    doubled or final slash, and [./] at most at the start. *)
Record MemoryWorld := mkMemory {
  files : list (jsstring * jsstring);
  directories : list jsstring
}.

Fixpoint fileAt (p : jsstring) (fs : list (jsstring * jsstring))
  : option jsstring :=
  match fs with
  | [] => None
  | (q, c) :: fs' => if strEq q p then Some c else fileAt p fs'
  end.

Fixpoint lastSegment (p : jsstring) : jsstring :=
  match p with
  | [] => []
  | c :: t =>
      if existsb (N.eqb (ch "/")) t then lastSegment t
      else if (c =? ch "/")%N then t else p
  end.

Definition withoutDot (p : jsstring) : jsstring :=
  if startsWith p (js "./") then skipn 2 p else p.

Definition memoryRuntime : Runtime := {|
  World := MemoryWorld;
  existsSync := fun w p =>
    existsb (strEq p) (directories w)
    || match fileAt p (files w) with Some _ => true | None => false end;
  readFileSync := fun w p =>
    match fileAt p (files w) with
    | Some c => Returns c
    | None => Throws (js "ENOENT")
    end;
  mkdirSync := fun w d => (mkMemory (files w) (d :: directories w), None);
  copyFileSync := fun w a b =>
    match fileAt a (files w) with
    | Some c => (mkMemory ((b, c) :: files w) (directories w), None)
    | None => (w, Some (js "ENOENT"))
    end;
  writeFileSync := fun w p c =>
    (mkMemory ((p, c) :: files w) (directories w), None);
  toISOString := fun _ => js "2024-05-06T07:08:09.123Z";
  basename := lastSegment;
  join := fun a b => withoutDot a ++ js "/" ++ b
|}.

(* ================================================================== *)
(** * Notions used in the further properties *)
(* ================================================================== *)

(** The images lie in the text one after the other: [rest] is the text
    from index [from] on, each image starts at or after the end of the one
    before it, and its [full] is what the text holds at its [index]. *)
Fixpoint inOrder (rest : jsstring) (from : nat) (images : list Image) : Prop :=
  match images with
  | [] => True
  | image :: more =>
      from <= index image
      /\ index image + length (full image) <= from + length rest
      /\ firstn (length (full image)) (skipn (index image - from) rest)
         = full image
      /\ inOrder (skipn (index image - from + length (full image)) rest)
                 (index image + length (full image)) more
  end.

(** The text with every image replaced by its rewrite and everything
    between the images kept. *)
Fixpoint spliced (unicodeUpper : N -> jsstring) (options : Options.t)
  (rest : jsstring) (from : nat) (images : list Image) : jsstring :=
  match images with
  | [] => rest
  | image :: more =>
      firstn (index image - from) rest
      ++ optimizeImage unicodeUpper options image
      ++ spliced unicodeUpper options
           (skipn (index image - from + length (full image)) rest)
           (index image + length (full image)) more
  end.

(** The two steps of [optimizeHtmlImage] after its early return. *)
Definition lazyStep (options : Options.t) (imgTag : jsstring) : jsstring :=
  if negb (includes imgTag (js "loading=")) && Options.addLazyLoading options
  then replaceStr imgTag (js "<img")
         (js "<img loading=" ++ [dq] ++ js "lazy" ++ [dq])
  else imgTag.

Definition styleStep (imgTag : jsstring) : jsstring :=
  if negb (includes imgTag (js "style="))
     && negb (includes imgTag (js "max-width"))
  then replaceStr imgTag (js "<img")
         (js "<img style=" ++ [dq]
          ++ js "max-width: 100%; height: auto;" ++ [dq])
  else imgTag.

(** The path of the WebP sibling in plain string operations: a final
    [.png], [.jpg] or [.jpeg], in any case, becomes [.webp]. *)
Definition webpSources : list jsstring := [js ".png"; js ".jpg"; js ".jpeg"].

Definition webpSibling (src : jsstring) : jsstring :=
  match find (endsWithIgnoringCase src) webpSources with
  | Some e => firstn (length src - length e) src ++ js ".webp"
  | None => src
  end.

(** [replaceAtSuffix p r s] puts [r] in place of the leftmost suffix of [s]
    that satisfies [p], if there is one. *)
Fixpoint replaceAtSuffix (p : jsstring -> bool) (r s : jsstring) : jsstring :=
  if p s then r
  else match s with
       | [] => []
       | c :: t => c :: replaceAtSuffix p r t
       end.

(** The expression can only match where the input has [c] (up to case
    under the [i] flag): its first token is the character [c]. *)
Fixpoint firstIs (c : N) (r : Regex) : bool :=
  match r with
  | RChar d => (d =? c)%N
  | RSeq r1 _ => firstIs c r1
  | RGroup _ r' => firstIs c r'
  | _ => false
  end.

(** Every colon turned into a hyphen. *)
Definition hyphenate (s : jsstring) : jsstring :=
  map (fun c => if (c =? ch ":")%N then ch "-" else c) s.

(* ================================================================== *)
(** * Properties of the runtime model *)
(* ================================================================== *)

(** ** Strings *)

Lemma strEq_spec (a b : jsstring) : strEq a b = true <-> a = b.
Proof.
  revert b; induction a as [|x a IH]; intros [|y b]; simpl; split;
    try congruence; try discriminate.
  - intros H. apply andb_true_iff in H as [H1 H2].
    apply N.eqb_eq in H1. apply IH in H2. congruence.
  - intros H. injection H as -> ->. rewrite N.eqb_refl. now apply IH.
Qed.

Lemma strEq_refl (a : jsstring) : strEq a a = true.
Proof. now apply strEq_spec. Qed.

Lemma strEq_false (a b : jsstring) : strEq a b = false <-> a <> b.
Proof.
  split.
  - intros H E. apply strEq_spec in E. congruence.
  - intros H. destruct (strEq a b) eqn:E; [|reflexivity].
    apply strEq_spec in E. contradiction.
Qed.

Lemma startsWith_spec (s p : jsstring) :
  startsWith s p = true <-> exists t, s = p ++ t.
Proof.
  revert s; induction p as [|a p IH]; intros s; simpl.
  - split; [intros _; now exists s | reflexivity].
  - destruct s as [|b s].
    + split; [discriminate | intros [t H]; discriminate].
    + rewrite andb_true_iff, N.eqb_eq, IH. split.
      * intros [-> [t ->]]. now exists t.
      * intros [t H]. injection H as -> ->. split; [reflexivity | now exists t].
Qed.

Lemma startsWith_nil (s : jsstring) : startsWith s [] = true.
Proof. now destruct s. Qed.

Lemma indexOf_Some (s p : jsstring) (i : nat) :
  indexOf s p = Some i ->
  exists u v, s = u ++ p ++ v /\ length u = i.
Proof.
  revert i; induction s as [|c s IH]; intros i; simpl.
  - destruct (startsWith [] p) eqn:E; [|discriminate].
    intros [= <-]. apply startsWith_spec in E as [t ->]. now exists [], t.
  - destruct (startsWith (c :: s) p) eqn:E.
    + intros [= <-]. apply startsWith_spec in E as [t ->]. now exists [], t.
    + destruct (indexOf s p) as [j|]; [|discriminate].
      simpl. intros [= <-].
      destruct (IH j eq_refl) as (u & v & -> & <-).
      now exists (c :: u), v.
Qed.

Lemma indexOf_None (s p u v : jsstring) :
  indexOf s p = None -> s <> u ++ p ++ v.
Proof.
  revert u; induction s as [|c s IH]; intros u; simpl.
  - destruct (startsWith [] p) eqn:E; [discriminate|].
    intros _ H. destruct u; [|discriminate]. simpl in H.
    assert (startsWith [] p = true) by (apply startsWith_spec; now exists v).
    congruence.
  - destruct (startsWith (c :: s) p) eqn:E; [discriminate|].
    destruct (indexOf s p) eqn:F; [discriminate|].
    intros _ H. destruct u as [|d u]; simpl in H.
    + assert (startsWith (c :: s) p = true)
        by (apply startsWith_spec; now exists v).
      congruence.
    + injection H as -> H. now apply (IH u).
Qed.

(** [includes] is substring containment. *)
Lemma includes_spec (s p : jsstring) :
  includes s p = true <-> exists u v, s = u ++ p ++ v.
Proof.
  unfold includes. destruct (indexOf s p) as [i|] eqn:E.
  - split; [intros _ | reflexivity].
    destruct (indexOf_Some _ _ E) as (u & v & H & _). now exists u, v.
  - split; [discriminate|]. intros (u & v & H).
    now apply (indexOf_None _ u v) in E.
Qed.

Lemma includes_false (s p : jsstring) :
  includes s p = false <-> forall u v, s <> u ++ p ++ v.
Proof.
  split.
  - intros H u v E.
    assert (includes s p = true) by (apply includes_spec; now exists u, v).
    congruence.
  - intros H. destruct (includes s p) eqn:E; [|reflexivity].
    apply includes_spec in E as (u & v & E). now apply H in E.
Qed.

(** ** The matcher *)

Lemma extends_refl (x : MState) : extends x x.
Proof. exists []. split; simpl; [reflexivity | lia]. Qed.

Lemma extends_trans (x y z : MState) : extends x y -> extends y z -> extends x z.
Proof.
  intros (w1 & H1 & H2) (w2 & H3 & H4). exists (w1 ++ w2). split.
  - now rewrite H1, H3, app_assoc.
  - rewrite length_app. lia.
Qed.

Lemma extends_length (x y : MState) :
  extends x y -> length (remaining y) <= length (remaining x).
Proof. intros (w & H & _). rewrite H, length_app. lia. Qed.

Lemma consumed_firstn (x y : MState) (w : jsstring) :
  consumed x y w -> firstn (endIndex y - endIndex x) (remaining x) = w.
Proof.
  intros [H1 H2]. rewrite H1, H2.
  replace (endIndex x + length w - endIndex x) with (length w + 0) by lia.
  now rewrite firstn_app_2, firstn_O, app_nil_r.
Qed.

Section Star.
Variable m : MState -> list MState.

Lemma star_extends :
  (forall x y, In y (m x) -> extends x y) ->
  forall fuel x y, In y (star m fuel x) -> extends x y.
Proof.
  intros Hm fuel; induction fuel as [|fuel IH]; intros x y; simpl.
  - intros [<-|[]]. apply extends_refl.
  - rewrite in_app_iff, in_flat_map. intros [(z & Hz & Hy)|[<-|[]]].
    + destruct (length (remaining z) <? length (remaining x)); [|easy].
      apply extends_trans with z; [now apply Hm | now apply IH].
    + apply extends_refl.
Qed.

(** The budget [run] gives to [star] is never used up: any larger budget
    computes the same list. *)
Lemma star_fuel (n1 n2 : nat) (x : MState) :
  length (remaining x) < n1 -> length (remaining x) < n2 ->
  star m n1 x = star m n2 x.
Proof.
  revert n2 x; induction n1 as [|n1 IH]; intros [|n2] x H1 H2; try lia.
  simpl. f_equal. apply flat_map_ext. intros y.
  destruct (length (remaining y) <? length (remaining x)) eqn:E;
    [|reflexivity].
  apply Nat.ltb_lt in E. apply IH; lia.
Qed.
End Star.

Lemma run_extends (ic : bool) (r : Regex) :
  forall x y, In y (run ic r x) -> extends x y.
Proof.
  assert (step : forall x d t,
             remaining x = d :: t ->
             extends x (mkState (S (endIndex x)) t (captures x))).
  { intros x d t E. exists [d]. split; simpl; [assumption | lia]. }
  induction r as [|c|neg atoms| | |r1 IH1 r2 IH2|r1 IH1 r2 IH2|r IH|r IH|n r IH];
    intros x y; cbn [run].
  - intros [<-|[]]. apply extends_refl.
  - destruct (remaining x) as [|d t] eqn:E; [easy|].
    destruct (_ =? _)%N; [|easy]. intros [<-|[]]. now apply (step x d).
  - destruct (remaining x) as [|d t] eqn:E; [easy|].
    destruct (xorb _ _); [|easy]. intros [<-|[]]. now apply (step x d).
  - destruct (endIndex x =? 0); [|easy]. intros [<-|[]]. apply extends_refl.
  - destruct (remaining x); [|easy]. intros [<-|[]]. apply extends_refl.
  - rewrite in_flat_map. intros (z & Hz & Hy).
    apply extends_trans with z; [now apply IH1 | now apply IH2].
  - rewrite in_app_iff. intros [H|H]; [now apply IH1 | now apply IH2].
  - now apply star_extends.
  - rewrite in_flat_map. intros (z & Hz & Hy).
    apply extends_trans with z; [now apply IH|].
    now apply star_extends in Hy.
  - rewrite in_map_iff. intros (z & <- & Hz).
    destruct (IH _ _ Hz) as (w & H1 & H2). now exists w.
Qed.

Lemma run_empty_inv (ic : bool) (x y : MState) :
  In y (run ic REmpty x) -> y = x.
Proof. intros [<-|[]]. reflexivity. Qed.

Lemma run_seq_inv (ic : bool) (r1 r2 : Regex) (x y : MState) :
  In y (run ic (RSeq r1 r2) x) ->
  exists z, In z (run ic r1 x) /\ In y (run ic r2 z).
Proof. cbn [run]. now rewrite in_flat_map. Qed.

Lemma run_char_inv (ic : bool) (c : N) (x y : MState) :
  In y (run ic (RChar c) x) ->
  exists d, consumed x y [d] /\ canonicalize ic d = canonicalize ic c
            /\ captures y = captures x.
Proof.
  cbn [run]. destruct (remaining x) as [|d t] eqn:E; [easy|].
  destruct (_ =? _)%N eqn:F; [|easy]. intros [<-|[]].
  apply N.eqb_eq in F. exists d. repeat split; simpl; try assumption; lia.
Qed.

Lemma run_class_inv (ic negated : bool) (atoms : list ClassAtom) (x y : MState) :
  In y (run ic (RClass negated atoms) x) ->
  exists d, consumed x y [d] /\ inClass ic negated atoms d = true
            /\ captures y = captures x.
Proof.
  cbn [run]. destruct (remaining x) as [|d t] eqn:E; [easy|].
  destruct (xorb _ _) eqn:F; [|easy]. intros [<-|[]].
  exists d. repeat split; simpl; try assumption; lia.
Qed.

Lemma star_class_inv (ic negated : bool) (atoms : list ClassAtom) :
  forall fuel x y,
    In y (star (run ic (RClass negated atoms)) fuel x) ->
    exists w, consumed x y w /\ forallb (inClass ic negated atoms) w = true
              /\ captures y = captures x.
Proof.
  induction fuel as [|fuel IH]; intros x y; simpl star.
  - intros [<-|[]]. exists []. repeat split; simpl; lia.
  - rewrite in_app_iff, in_flat_map. intros [(z & Hz & Hy)|[<-|[]]].
    + destruct (length (remaining z) <? length (remaining x)); [|easy].
      apply run_class_inv in Hz as (d & [H1 H2] & H3 & H4).
      apply IH in Hy as (w & [H5 H6] & H7 & H8).
      exists (d :: w). repeat split; simpl.
      * rewrite H1, H5. reflexivity.
      * simpl in H2. lia.
      * now rewrite H3, H7.
      * congruence.
    + exists []. repeat split; simpl; lia.
Qed.

Lemma run_star_class_inv (ic negated : bool) (atoms : list ClassAtom) (x y : MState) :
  In y (run ic (RStar (RClass negated atoms)) x) ->
  exists w, consumed x y w /\ forallb (inClass ic negated atoms) w = true
            /\ captures y = captures x.
Proof. apply star_class_inv. Qed.

Lemma run_plus_class_inv (ic negated : bool) (atoms : list ClassAtom) (x y : MState) :
  In y (run ic (RPlus (RClass negated atoms)) x) ->
  exists w, consumed x y w /\ forallb (inClass ic negated atoms) w = true
            /\ captures y = captures x /\ w <> [].
Proof.
  cbn [run]. rewrite in_flat_map. intros (z & Hz & Hy).
  apply run_class_inv in Hz as (d & [H1 H2] & H3 & H4).
  apply star_class_inv in Hy as (w & [H5 H6] & H7 & H8).
  exists (d :: w). repeat split; simpl.
  - rewrite H1, H5. reflexivity.
  - simpl in H2. lia.
  - now rewrite H3, H7.
  - congruence.
  - discriminate.
Qed.

Lemma run_group_inv (ic : bool) (n : nat) (r : Regex) (x y : MState) :
  In y (run ic (RGroup n r) x) ->
  exists z w, In z (run ic r x) /\ consumed x z w
              /\ y = mkState (endIndex z) (remaining z) ((n, w) :: captures z).
Proof.
  cbn [run]. rewrite in_map_iff. intros (z & <- & Hz).
  destruct (run_extends _ _ _ _ Hz) as (w & Hw).
  exists z, w. now rewrite (consumed_firstn Hw).
Qed.

Lemma nonEmpty_run (ic : bool) (r : Regex) :
  nonEmpty r = true ->
  forall x y, In y (run ic r x) -> endIndex x < endIndex y.
Proof.
  assert (mono : forall r x y, In y (run ic r x) -> endIndex x <= endIndex y).
  { intros r0 x y H. destruct (run_extends _ _ _ _ H) as (w & _ & ->). lia. }
  induction r as [|c|neg atoms| | |r1 IH1 r2 IH2|r1 IH1 r2 IH2|r IH|r IH|n r IH];
    simpl nonEmpty; try discriminate; intros NE x y H.
  - apply run_char_inv in H as (d & [_ ->] & _). simpl. lia.
  - apply run_class_inv in H as (d & [_ ->] & _). simpl. lia.
  - apply run_seq_inv in H as (z & H1 & H2).
    apply orb_true_iff in NE as [NE|NE].
    + specialize (IH1 NE _ _ H1). apply mono in H2. lia.
    + specialize (IH2 NE _ _ H2). apply mono in H1. lia.
  - apply andb_true_iff in NE as [NE1 NE2]. cbn [run] in H.
    apply in_app_iff in H as [H|H]; [now apply IH1 | now apply IH2].
  - cbn [run] in H. apply in_flat_map in H as (z & H1 & H2).
    specialize (IH NE _ _ H1).
    apply star_extends in H2 as (w & _ & ->); [lia|apply run_extends].
  - apply run_group_inv in H as (z & w & H1 & _ & ->). simpl.
    now apply IH.
Qed.

(** ** Searching *)

Lemma searchFrom_Some (re : RegExp) :
  forall rest i m,
    searchFrom re i rest = Some m ->
    exists k y l,
      k <= length rest
      /\ run (ignoreCase re) (pattern re) (mkState (i + k) (skipn k rest) [])
         = y :: l
      /\ m = mkMatch (i + k) (firstn (endIndex y - (i + k)) (skipn k rest))
                     (captures y) (endIndex y).
Proof.
  induction rest as [|c rest IH]; intros i m; simpl searchFrom.
  - destruct (run _ _ _) as [|y l] eqn:E; [discriminate|].
    intros [= <-]. exists 0, y, l. rewrite Nat.add_0_r. simpl. auto.
  - destruct (run _ _ _) as [|y l] eqn:E.
    + intros H. apply IH in H as (k & y & l & H1 & H2 & H3).
      exists (S k), y, l. rewrite <- Nat.add_succ_comm. simpl. split; [lia|auto].
    + intros [= <-]. exists 0, y, l. rewrite Nat.add_0_r. simpl.
      split; [lia|auto].
Qed.

Lemma exec_Some (re : RegExp) (input : jsstring) (i : nat) (m : MatchResult) :
  exec re input i = Some m ->
  exists j y l,
    i <= j <= length input
    /\ run (ignoreCase re) (pattern re) (mkState j (skipn j input) []) = y :: l
    /\ m = mkMatch j (firstn (endIndex y - j) (skipn j input))
                   (captures y) (endIndex y).
Proof.
  unfold exec. destruct (length input <? i) eqn:E; [discriminate|].
  apply Nat.ltb_ge in E. intros H.
  apply searchFrom_Some in H as (k & y & l & H1 & H2 & H3).
  rewrite length_skipn in H1. rewrite skipn_skipn in H2, H3.
  rewrite (Nat.add_comm k i) in H2, H3.
  exists (i + k), y, l. split; [lia|auto].
Qed.

(** A match lies inside the input, and its text is the span it covers. *)
Lemma exec_span (re : RegExp) (input : jsstring) (i : nat) (m : MatchResult) :
  exec re input i = Some m ->
  i <= m_index m
  /\ m_lastIndex m = m_index m + length (m_full m)
  /\ m_lastIndex m <= length input
  /\ firstn (length (m_full m)) (skipn (m_index m) input) = m_full m.
Proof.
  intros H. apply exec_Some in H as (j & y & l & Hj & Hrun & ->). simpl.
  assert (Hy : In y (run (ignoreCase re) (pattern re)
                         (mkState j (skipn j input) [])))
    by (rewrite Hrun; now left).
  apply run_extends in Hy as (w & Hw).
  rewrite (consumed_firstn Hw : firstn (endIndex y - j) (skipn j input) = w).
  destruct Hw as [H1 H2]. simpl in H1, H2.
  assert (L : length (skipn j input) = length w + length (remaining y))
    by now rewrite H1, length_app.
  rewrite length_skipn in L.
  repeat split; try lia.
  rewrite H1. replace (length w) with (length w + 0) by lia.
  now rewrite firstn_app_2, firstn_O, app_nil_r.
Qed.

Lemma whileExec_In (re : RegExp) (input : jsstring) :
  forall fuel i m,
    In m (whileExec fuel re input i) ->
    exists j, exec re input j = Some m.
Proof.
  induction fuel as [|fuel IH]; intros i m; simpl; [easy|].
  destruct (exec re input i) as [m'|] eqn:E; [|easy].
  intros [<-|H]; [now exists i | now apply IH in H].
Qed.

(** The rounds [whileExec] is given are never used up when the pattern
    cannot match the empty string: any larger number gives the same list. *)
Lemma whileExec_fuel (re : RegExp) (input : jsstring) :
  nonEmpty (pattern re) = true ->
  forall n1 n2 i,
    length input - i < n1 -> length input - i < n2 ->
    whileExec n1 re input i = whileExec n2 re input i.
Proof.
  intros NE. induction n1 as [|n1 IH]; intros [|n2] i H1 H2; try lia.
  simpl. destruct (exec re input i) as [m|] eqn:E; [|reflexivity].
  f_equal. pose proof (exec_span _ _ _ E) as (A & B & C & _).
  apply exec_Some in E as (j & y & l & Hj & Hrun & ->). simpl in *.
  assert (Hy : In y (run (ignoreCase re) (pattern re)
                         (mkState j (skipn j input) [])))
    by (rewrite Hrun; now left).
  apply (nonEmpty_run _ _ NE) in Hy. simpl in Hy.
  apply IH; lia.
Qed.

(* ================================================================== *)
(** * The scanner *)
(* ================================================================== *)

(** Every match of [imageRegex] reads [![alt](src)], with the two groups
    holding [alt] and a non-empty [src]. *)
Lemma imageRegex_run (i : nat) (rest : jsstring) (y : MState) :
  In y (run (ignoreCase imageRegex) (pattern imageRegex) (mkState i rest [])) ->
  exists alt src,
    consumed (mkState i rest []) y
             (js "![" ++ alt ++ js "](" ++ src ++ js ")")
    /\ captures y = [(2, src); (1, alt)]
    /\ src <> [].
Proof.
  cbn [ignoreCase pattern imageRegex seqs]. intros H.
  apply run_seq_inv in H as (s1 & H1 & H).
  apply run_seq_inv in H as (s2 & H2 & H).
  apply run_seq_inv in H as (s3 & H3 & H).
  apply run_seq_inv in H as (s4 & H4 & H).
  apply run_seq_inv in H as (s5 & H5 & H).
  apply run_seq_inv in H as (s6 & H6 & H).
  apply run_seq_inv in H as (s7 & H7 & H).
  apply run_empty_inv in H as ->.
  apply run_char_inv in H1 as (d1 & [A1 B1] & C1 & D1).
  apply run_char_inv in H2 as (d2 & [A2 B2] & C2 & D2).
  apply run_group_inv in H3 as (z3 & alt & H3 & [A3 B3] & ->).
  apply run_star_class_inv in H3 as (alt' & [A3' _] & _ & D3).
  apply run_char_inv in H4 as (d4 & [A4 B4] & C4 & D4).
  apply run_char_inv in H5 as (d5 & [A5 B5] & C5 & D5).
  apply run_group_inv in H6 as (z6 & src & H6 & [A6 B6] & ->).
  apply run_plus_class_inv in H6 as (src' & [A6' _] & _ & D6 & NE).
  apply run_char_inv in H7 as (d7 & [A7 B7] & C7 & D7).
  cbn in *. subst d1 d2 d4 d5 d7.
  assert (alt' = alt) by (rewrite A3' in A3; now apply app_inv_tail in A3).
  assert (src' = src) by (rewrite A6' in A6; now apply app_inv_tail in A6).
  subst alt' src'.
  exists alt, src. repeat split.
  - cbn. rewrite A1, A2, A3, A4, A5, A6, A7.
    do 2 f_equal. rewrite <- app_assoc. cbn. f_equal.
    now rewrite <- app_assoc.
  - cbn. rewrite B7, B6, B5, B4, B3, B2, B1, !length_app. cbn.
    rewrite length_app. cbn. lia.
  - now rewrite D7, D6, D5, D4, D3, D2, D1.
  - assumption.
Qed.

Lemma imageRegex_exec (content : jsstring) (i : nat) (m : MatchResult) :
  exec imageRegex content i = Some m ->
  m_full m = js "![" ++ group 1 m ++ js "](" ++ group 2 m ++ js ")"
  /\ group 2 m <> [].
Proof.
  intros H. apply exec_Some in H as (j & y & l & _ & Hrun & ->).
  assert (Hy : In y (run (ignoreCase imageRegex) (pattern imageRegex)
                         (mkState j (skipn j content) [])))
    by (rewrite Hrun; now left).
  apply imageRegex_run in Hy as (alt & src & Hw & Hc & NE).
  unfold group. cbn [m_full m_captures]. rewrite Hc. cbn [find fst Nat.eqb].
  now rewrite (consumed_firstn Hw : firstn (endIndex y - j) (skipn j content) = _).
Qed.

(** What the scanner reports for a markdown image: the matched text is
    [![alt](src)], the path is not empty, and the text is the span of the
    document at [index]. *)
Lemma analyzeImages_markdown (content f a s : jsstring) (i : nat) :
  In (MarkdownImage f a s i) (analyzeImages content) ->
  f = js "![" ++ a ++ js "](" ++ s ++ js ")"
  /\ s <> []
  /\ firstn (length f) (skipn i content) = f.
Proof.
  unfold analyzeImages. rewrite in_app_iff, !in_map_iff.
  intros [(m & E & Hm)|(m & E & _)]; [|discriminate].
  injection E as <- <- <- <-.
  apply whileExec_In in Hm as (j & Hj).
  destruct (imageRegex_exec _ _ Hj) as [H1 H2].
  destruct (exec_span _ _ _ Hj) as (_ & _ & _ & H3). auto.
Qed.

(** The same span invariant for an HTML image. *)
Lemma analyzeImages_html (content f s : jsstring) (i : nat) :
  In (HtmlImage f s i) (analyzeImages content) ->
  firstn (length f) (skipn i content) = f.
Proof.
  unfold analyzeImages. rewrite in_app_iff, !in_map_iff.
  intros [(m & E & _)|(m & E & Hm)]; [discriminate|].
  injection E as <- <- <-.
  apply whileExec_In in Hm as (j & Hj).
  now destruct (exec_span _ _ _ Hj) as (_ & _ & _ & H3).
Qed.

(** The two loops of [analyzeImages] end because [exec] returns [null], not
    because the rounds run out: more rounds find the same images. *)
Lemma analyzeImages_fuel (content : jsstring) (n1 n2 : nat) :
  length content < n1 -> length content < n2 ->
  analyzeImages content
  = map (fun m => MarkdownImage (m_full m) (group 1 m) (group 2 m) (m_index m))
        (whileExec n1 imageRegex content 0)
    ++ map (fun m => HtmlImage (m_full m) (group 1 m) (m_index m))
           (whileExec n2 htmlImageRegex content 0).
Proof.
  intros H1 H2. unfold analyzeImages. f_equal; f_equal.
  - apply whileExec_fuel; [reflexivity | lia | lia].
  - apply whileExec_fuel; [reflexivity | lia | lia].
Qed.

(* ================================================================== *)
(** * The rewriter *)
(* ================================================================== *)

Lemma includes_app (s u v p : jsstring) :
  s = u ++ v -> includes v p = true -> includes s p = true.
Proof.
  intros -> H. apply includes_spec in H as (a & b & ->).
  apply includes_spec. exists (u ++ a), b. now rewrite <- app_assoc.
Qed.

Lemma includes_skip (u v p : jsstring) :
  includes v p = true -> includes (u ++ v) p = true.
Proof. now apply (@includes_app (u ++ v) u v). Qed.

(** The two [startsWith] tests of [isAssetImage] are covered by its
    [includes] test. *)
Lemma isAssetImage_includes (src : jsstring) :
  isAssetImage src = includes src (js "/assets/").
Proof.
  unfold isAssetImage.
  destruct (includes src (js "/assets/")) eqn:E; [now rewrite orb_true_r|].
  rewrite orb_false_r.
  destruct (startsWith src (js "./assets/")) eqn:E1.
  - apply startsWith_spec in E1 as [t ->].
    rewrite (includes_false _ _) in E. now destruct (E (js ".") t).
  - destruct (startsWith src (js "../assets/")) eqn:E2; [|reflexivity].
    apply startsWith_spec in E2 as [t ->].
    rewrite (includes_false _ _) in E. now destruct (E (js "..") t).
Qed.

(** An asset path contains [assets/]. *)
Lemma isAssetImage_assets (src : jsstring) :
  isAssetImage src = true -> includes src (js "assets/") = true.
Proof.
  rewrite isAssetImage_includes. intros H.
  apply includes_spec in H as (u & v & ->).
  apply includes_spec. exists (u ++ js "/"), v. now rewrite <- app_assoc.
Qed.

Section Rewriter.
Variable unicodeUpper : N -> jsstring.
Variable options : Options.t.

Lemma optimizeMarkdownImage_non_asset (alt src : jsstring) :
  isAssetImage src = false ->
  optimizeMarkdownImage unicodeUpper options alt src = js "![" ++ alt ++ js "](" ++ src ++ js ")".
Proof. unfold optimizeMarkdownImage. now intros ->. Qed.

(** The rewrite of an asset image opens with [<picture>]. *)
Lemma optimizeMarkdownImage_asset (alt src : jsstring) :
  isAssetImage src = true ->
  startsWith (optimizeMarkdownImage unicodeUpper options alt src) (js "<picture>") = true.
Proof. unfold optimizeMarkdownImage. now intros ->. Qed.

(** A scanned markdown image is changed exactly when it is an asset. *)
Lemma optimizeImage_markdown (content : jsstring) (image : Image) :
  In image (analyzeImages content) -> isMarkdown image = true ->
  negb (strEq (optimizeImage unicodeUpper options image) (full image)) = isAssetImage (src image).
Proof.
  destruct image as [f a s i|]; [|discriminate]. intros H _. cbn.
  apply analyzeImages_markdown in H as (-> & _ & _).
  destruct (isAssetImage s) eqn:E.
  - pose proof (@optimizeMarkdownImage_asset a s E) as P.
    destruct (optimizeMarkdownImage unicodeUpper options a s) as [|c t]; [discriminate|].
    apply andb_true_iff in P as [P _]. apply N.eqb_eq in P. now subst c.
  - rewrite optimizeMarkdownImage_non_asset by assumption.
    now rewrite strEq_refl.
Qed.
End Rewriter.

(* ================================================================== *)
(** * The reassembler *)
(* ================================================================== *)

Section Reassembler.
Variable unicodeUpper : N -> jsstring.
Variable options : Options.t.

Lemma reassemble_unchanged (st : Reassembly) (image : Image) :
  changed unicodeUpper options image = false ->
  reassemble unicodeUpper options st image = st.
Proof. unfold reassemble, changed. now intros ->. Qed.

Lemma fold_reassemble_unchanged (images : list Image) :
  (forall image, In image images ->
                 changed unicodeUpper options image = false) ->
  forall st, fold_left (reassemble unicodeUpper options) images st = st.
Proof.
  induction images as [|image images IH]; intros H st; simpl; [reflexivity|].
  rewrite reassemble_unchanged by (apply H; now left).
  apply IH. intros image' H'. apply H. now right.
Qed.

Lemma reassemble_count (st : Reassembly) (image : Image) :
  Stats.imagesOptimized (stats (reassemble unicodeUpper options st image))
  = Stats.imagesOptimized (stats st)
    + (if changed unicodeUpper options image then 1 else 0).
Proof.
  unfold reassemble, changed.
  destruct (negb _); simpl; lia.
Qed.

Lemma fold_reassemble_count (images : list Image) :
  forall st,
    Stats.imagesOptimized
      (stats (fold_left (reassemble unicodeUpper options) images st))
    = Stats.imagesOptimized (stats st)
      + length (filter (changed unicodeUpper options) images).
Proof.
  induction images as [|image images IH]; intros st; simpl; [lia|].
  rewrite IH, reassemble_count.
  destruct (changed unicodeUpper options image); simpl; lia.
Qed.
End Reassembler.

(** In a document whose images are all markdown images, the changed images
    are the asset images. *)
Lemma changed_markdown_only
  (unicodeUpper : N -> jsstring) (options : Options.t) (content : jsstring) :
  (forall image, In image (analyzeImages content) -> isMarkdown image = true) ->
  filter (changed unicodeUpper options) (analyzeImages content)
  = filter (fun image => isAssetImage (src image)) (analyzeImages content).
Proof.
  intros H. apply filter_ext_in. intros image Hin. unfold changed.
  now apply optimizeImage_markdown with content; [|apply H].
Qed.

(** Whatever the options, the rewrite of an asset image carries
    [loading="lazy"]. *)
Lemma optimizeMarkdownImage_lazy
  (unicodeUpper : N -> jsstring) (options : Options.t) (alt path : jsstring) :
  isAssetImage path = true ->
  includes (optimizeMarkdownImage unicodeUpper options alt path)
           (attr (js "loading") (js "lazy")) = true.
Proof.
  intros H. unfold optimizeMarkdownImage. rewrite H. cbn [negb].
  do 19 apply includes_skip. vm_compute. reflexivity.
Qed.

(** ** Insertions and the [loading=] test *)

Lemma firstn_length_app (u l : jsstring) : firstn (length u) (u ++ l) = u.
Proof. induction u as [|x u IH]; cbn; [now destruct l | now rewrite IH]. Qed.

Lemma skipn_length_app (u l : jsstring) (k : nat) :
  skipn (length u + k) (u ++ l) = skipn k l.
Proof. induction u as [|x u IH]; cbn; [reflexivity | exact IH]. Qed.

Lemma replaceStr_spec (s p r : jsstring) :
  replaceStr s p r = s
  \/ exists u v, s = u ++ p ++ v /\ replaceStr s p r = u ++ r ++ v.
Proof.
  unfold replaceStr. destruct (indexOf s p) as [i|] eqn:E; [right | now left].
  apply indexOf_Some in E as (u & v & -> & <-). exists u, v.
  split; [reflexivity|].
  rewrite firstn_length_app, skipn_length_app.
  rewrite <- (Nat.add_0_r (length p)), skipn_length_app. reflexivity.
Qed.

(** A text free of [c], when it is a prefix of [a ++ c :: b], lies in [a]. *)
Lemma prefix_before (c : N) (p : jsstring) :
  ~ In c p ->
  forall a b v, a ++ c :: b = p ++ v -> exists w, a = p ++ w.
Proof.
  intros NI. induction p as [|x p IH]; intros a b v E; [now exists a|].
  destruct a as [|y a]; cbn in E; injection E as -> E.
  - destruct NI. now left.
  - destruct (IH (fun H => NI (or_intror H)) a b v E) as [w ->].
    now exists w.
Qed.

(** An occurrence of a text free of [c] in [a ++ c :: b] lies in [a] or
    in [b]. *)
Lemma occurrence_split (c : N) (p : jsstring) :
  ~ In c p ->
  forall a b u v,
    a ++ c :: b = u ++ p ++ v ->
    (exists w, a = u ++ p ++ w) \/ (exists w, b = w ++ p ++ v).
Proof.
  intros NI a b u; revert a b; induction u as [|y u IH]; intros a b v E.
  - left. now apply (@prefix_before c p NI) in E.
  - destruct a as [|x a]; cbn in E; injection E as -> E.
    + right. now exists u.
    + destruct (IH a b v E) as [[w ->]|[w ->]]; [left | right]; now exists w.
Qed.

(** Inserting [c :: mid ++ [d]] creates no occurrence of a text that is
    free of [c] and [d] and does not occur in [mid]. *)
Lemma includes_insertion (c d : N) (mid p a b : jsstring) :
  ~ In c p -> ~ In d p -> includes mid p = false ->
  includes (a ++ (c :: mid ++ [d]) ++ b) p = true ->
  includes (a ++ b) p = true.
Proof.
  intros Nc Nd Nm H. apply includes_spec in H as (u & v & E).
  apply includes_spec.
  replace (a ++ (c :: mid ++ [d]) ++ b) with (a ++ c :: (mid ++ d :: b)) in E
    by (cbn; now rewrite <- app_assoc).
  apply (@occurrence_split c p Nc) in E as [[w ->]|[w E]].
  - exists u, (w ++ b). now rewrite <- !app_assoc.
  - apply (@occurrence_split d p Nd) in E as [[w' ->]|[w' ->]].
    + rewrite (includes_false _ _) in Nm. now destruct (Nm w w').
    + exists (a ++ w'), v. now rewrite <- app_assoc.
Qed.

(** The HTML path honours [addLazyLoading]: with the option off, the
    result contains [loading=] only if the tag did. *)
Lemma optimizeHtmlImage_no_lazy (options : Options.t) (imgTag path : jsstring) :
  Options.addLazyLoading options = false ->
  includes (optimizeHtmlImage options imgTag path) (js "loading=") = true ->
  includes imgTag (js "loading=") = true.
Proof.
  intros Off. unfold optimizeHtmlImage. rewrite Off, andb_false_r.
  destruct (includes imgTag (js "loading=")
            && (includes imgTag (js "<picture>")
                || includes imgTag (js "srcset"))); [easy|].
  destruct (negb (includes imgTag (js "style="))
            && negb (includes imgTag (js "max-width"))); [|easy].
  destruct (replaceStr_spec imgTag (js "<img")
              (js "<img style=" ++ [dq]
               ++ js "max-width: 100%; height: auto;" ++ [dq]))
    as [->|(u & v & -> & ->)]; [easy|].
  change (js "<img style=" ++ [dq]
          ++ js "max-width: 100%; height: auto;" ++ [dq])
    with (js "<img"
          ++ ch " " :: (js "style=" ++ [dq]
                        ++ js "max-width: 100%; height: auto;") ++ [dq]).
  rewrite <- (app_assoc (js "<img")), (app_assoc u (js "<img")).
  rewrite (app_assoc u (js "<img") v).
  apply includes_insertion.
  - vm_compute. intuition discriminate.
  - vm_compute. intuition discriminate.
  - vm_compute. reflexivity.
Qed.

(* ================================================================== *)
(** * The alt-text rule *)
(* ================================================================== *)

(** ** Literal prefixes in the matcher *)

Lemma run_lit (ic : bool) (p : jsstring) :
  forall x,
    run ic (lit p) x
    = if matchesPrefix ic (remaining x) p then [advanced (length p) x] else [].
Proof.
  induction p as [|c p IH]; intros [i s caps]; unfold advanced; cbn.
  - now rewrite Nat.add_0_r.
  - destruct s as [|d s]; [reflexivity|].
    destruct (_ =? _)%N; [|reflexivity].
    cbn. fold (lit p). rewrite IH, app_nil_r. cbn.
    now rewrite Nat.add_succ_r.
Qed.

Lemma run_seq_lit (ic : bool) (p : jsstring) (k : Regex) (x : MState) :
  run ic (RSeq (lit p) k) x
  = if matchesPrefix ic (remaining x) p
    then run ic k (advanced (length p) x) else [].
Proof.
  cbn [run]. rewrite run_lit.
  destruct (matchesPrefix _ _ _); cbn; [apply app_nil_r | reflexivity].
Qed.

Lemma run_seq_char (ic : bool) (c : N) (k : Regex) (x : MState) :
  run ic (RSeq (RChar c) k) x
  = if matchesPrefix ic (remaining x) [c]
    then run ic k (advanced 1 x) else [].
Proof.
  destruct x as [i s caps]. unfold advanced. cbn.
  destruct s as [|d s]; [reflexivity|].
  rewrite andb_true_r. destruct (_ =? _)%N; [|reflexivity].
  cbn. now rewrite app_nil_r, Nat.add_1_r.
Qed.

Lemma run_seq_group_lit (ic : bool) (n : nat) (p : jsstring) (k : Regex)
  (x : MState) :
  run ic (RSeq (RGroup n (lit p)) k) x
  = if matchesPrefix ic (remaining x) p
    then run ic k (mkState (endIndex x + length p)
                           (skipn (length p) (remaining x))
                           ((n, firstn (length p) (remaining x)) :: captures x))
    else [].
Proof.
  cbn [run]. rewrite run_lit.
  destruct (matchesPrefix _ _ _); cbn; [|reflexivity].
  rewrite app_nil_r. now replace (endIndex x + length p - endIndex x)
    with (length p) by lia.
Qed.

Lemma run_seq_group_alt (ic : bool) (n : nat) (r1 r2 k : Regex) (x : MState) :
  run ic (RSeq (RGroup n (RAlt r1 r2)) k) x
  = run ic (RSeq (RGroup n r1) k) x ++ run ic (RSeq (RGroup n r2) k) x.
Proof. cbn [run]. now rewrite map_app, flat_map_app. Qed.

Lemma matchesPrefix_app (ic : bool) (p q : jsstring) :
  forall s,
    matchesPrefix ic s (p ++ q)
    = matchesPrefix ic s p && matchesPrefix ic (skipn (length p) s) q.
Proof.
  induction p as [|c p IH]; intros s; cbn; [reflexivity|].
  destruct s as [|d s]; [reflexivity|].
  now rewrite IH, andb_assoc.
Qed.

Lemma matchesPrefix_length (ic : bool) (p : jsstring) :
  forall s, matchesPrefix ic s p = true -> length p <= length s.
Proof.
  induction p as [|c p IH]; intros [|d s]; cbn; try lia; try discriminate.
  intros H. apply andb_true_iff in H as [_ H]. apply IH in H. lia.
Qed.

(** Canonicalisation under [i] identifies what lower-casing identifies. *)
Lemma canonicalize_same (a b : N) :
  (canonicalize true a =? canonicalize true b)%N = sameIgnoringCase a b.
Proof.
  unfold canonicalize, sameIgnoringCase, lowerAscii. cbn [andb].
  destruct (N.leb_spec 97 a), (N.leb_spec a 122), (N.leb_spec 97 b),
    (N.leb_spec b 122), (N.leb_spec 65 a), (N.leb_spec a 90),
    (N.leb_spec 65 b), (N.leb_spec b 90); cbn [andb]; try lia;
    match goal with
    | |- (?u =? ?v)%N = (?w =? ?z)%N =>
        destruct (N.eqb_spec u v), (N.eqb_spec w z); try reflexivity; lia
    end.
Qed.

Lemma matchesPrefix_ignoringCase (p : jsstring) :
  forall s, matchesPrefix true s p = startsWithIgnoringCase s p.
Proof.
  unfold startsWithIgnoringCase.
  induction p as [|c p IH]; intros [|d s]; cbn [matchesPrefix firstn length
    equalIgnoringCase]; try reflexivity.
  now rewrite canonicalize_same, IH.
Qed.

(** Matching a prefix and having nothing left is equality. *)
Lemma matchesPrefix_all (p : jsstring) :
  forall s,
    matchesPrefix true s p && isNil (skipn (length p) s)
    = equalIgnoringCase s p.
Proof.
  induction p as [|c p IH]; intros [|d s]; cbn [matchesPrefix skipn length
    equalIgnoringCase isNil]; try reflexivity.
  now rewrite canonicalize_same, <- andb_assoc, IH.
Qed.

(** ** The redundant-words replacement *)

Lemma searchFrom_unfold (re : RegExp) (i : nat) (rest : jsstring) :
  searchFrom re i rest
  = match run (ignoreCase re) (pattern re) (mkState i rest []) with
    | y :: _ =>
        Some (mkMatch i (firstn (endIndex y - i) rest) (captures y) (endIndex y))
    | [] =>
        match rest with
        | [] => None
        | _ :: rest' => searchFrom re (S i) rest'
        end
    end.
Proof. now destruct rest. Qed.

(** An expression that starts with [^] matches at index 0 or nowhere. *)
Lemma searchFrom_anchored (r : Regex) (ic g : bool) :
  forall rest i, searchFrom (mkRegExp (RSeq RBol r) ic g) (S i) rest = None.
Proof.
  induction rest as [|c rest IH]; intros i; cbn; [reflexivity | apply IH].
Qed.

Lemma skipn_length_firstn (k : nat) (s : jsstring) :
  skipn (length (firstn k s)) s = skipn k s.
Proof.
  rewrite length_firstn. destruct (Nat.le_ge_cases k (length s)) as [H|H].
  - now rewrite Nat.min_l.
  - rewrite Nat.min_r by assumption. now rewrite !skipn_all2 by lia.
Qed.

Lemma match_hd_error (A B : Type) (l : list A) (n : B) (f : A -> B) :
  match l with [] => n | y :: _ => f y end
  = match hd_error l with None => n | Some y => f y end.
Proof. now destruct l. Qed.

(** The first result among those of one word of the first group: the word,
    a space, one of two link words, a space. *)
Lemma hd_error_word (A : Type) (a b c1 d1 c2 d2 : bool) (s1 s2 : A)
  (others : list A) :
  hd_error
    ((if a
      then if b
           then (if c1 then if d1 then [s1] else [] else [])
                ++ (if c2 then if d2 then [s2] else [] else [])
           else []
      else [])
     ++ others)
  = if a && (b && (c1 && d1)) then Some s1
    else if a && (b && (c2 && d2)) then Some s2
         else hd_error others.
Proof. now destruct a, b, c1, d1, c2, d2. Qed.

Lemma replace_redundantWords (alt : jsstring) :
  replaceRe alt redundantWordsRegex [] = stripRedundantPrefix alt.
Proof.
  unfold replaceRe, exec. cbn [Nat.ltb Nat.leb skipn].
  rewrite searchFrom_unfold.
  cbn [ignoreCase pattern redundantWordsRegex seqs alts].
  change (run true (RSeq RBol ?k) (mkState 0 alt []))
    with (run true k (mkState 0 alt []) ++ []).
  rewrite !run_seq_group_alt, !run_seq_group_lit.
  cbn [remaining endIndex captures].
  rewrite !run_seq_char. unfold advanced. cbn [remaining endIndex captures].
  rewrite !run_seq_group_alt, !run_seq_group_lit.
  cbn [remaining endIndex captures].
  rewrite !run_seq_char. unfold advanced. cbn [remaining endIndex captures run].
  rewrite match_hd_error, <- !app_assoc, !hd_error_word.
  unfold stripRedundantPrefix, redundantPrefixes. cbn [flat_map map app find].
  rewrite <- !matchesPrefix_ignoringCase, !matchesPrefix_app.
  change (js " ") with [ch " "]. change (length [ch " "]) with 1.
  repeat match goal with
         | |- context [if ?c then _ else _] => destruct c
         end;
    cbn [hd_error m_index m_full endIndex firstn app Nat.add];
    rewrite ?Nat.sub_0_r, ?skipn_length_firstn; try reflexivity.
  destruct alt as [|c rest]; [reflexivity|].
  now rewrite (searchFrom_anchored _ true false rest 0
               : searchFrom redundantWordsRegex 1 rest = None).
Qed.

(** ** The extension replacement *)

Lemma run_eol (ic : bool) (x : MState) :
  run ic (RSeq REol REmpty) x = if isNil (remaining x) then [x] else [].
Proof. cbn. now destruct (remaining x). Qed.

Lemma isNil_skipn (k : nat) (s : jsstring) :
  isNil (skipn k s) = true -> length s <= k.
Proof.
  intros H. pose proof (length_skipn k s) as L.
  destruct (skipn k s); [simpl in L; lia | discriminate].
Qed.

Lemma equalIgnoringCase_length (s t : jsstring) :
  equalIgnoringCase s t = true -> length s = length t.
Proof.
  revert t; induction s as [|a s IH]; intros [|b t]; cbn; try discriminate;
    [reflexivity|].
  intros H. apply andb_true_iff in H as [_ H]. now rewrite (IH t).
Qed.

(** The first result among those of the four alternatives, each followed
    by the end of the input. *)
Lemma hd_error_extension (A : Type) (a c1 n1 c2 n2 c3 n3 c4 n4 : bool)
  (s1 s2 s3 s4 : A) :
  hd_error
    (if a
     then ((if c1 then if n1 then [s1] else [] else [])
           ++ (if c2 then if n2 then [s2] else [] else [])
           ++ (if c3 then if n3 then [s3] else [] else [])
           ++ (if c4 then if n4 then [s4] else [] else []))
     else [])
  = if a && (c1 && n1) then Some s1
    else if a && (c2 && n2) then Some s2
    else if a && (c3 && n3) then Some s3
    else if a && (c4 && n4) then Some s4
    else None.
Proof. now destruct a, c1, n1, c2, n2, c3, n3, c4, n4. Qed.

(** At any start index, [altExtensionRegex] matches exactly when what is
    left of the input is an extension, and then it matches all of it. *)
Lemma run_altExtension (i : nat) (rest : jsstring) :
  option_map endIndex
    (hd_error (run true (pattern altExtensionRegex) (mkState i rest [])))
  = if isExtension rest then Some (i + length rest) else None.
Proof.
  cbn [pattern altExtensionRegex seqs alts].
  rewrite run_seq_char. unfold advanced. cbn [remaining endIndex captures].
  rewrite !run_seq_group_alt, !run_seq_group_lit.
  cbn [remaining endIndex captures]. rewrite !run_eol.
  cbn [remaining]. rewrite hd_error_extension.
  unfold isExtension, imageExtensions. cbn [existsb].
  change (js ".png") with ([ch "."] ++ js "png").
  change (js ".jpg") with ([ch "."] ++ js "jpg").
  change (js ".jpeg") with ([ch "."] ++ js "jpeg").
  change (js ".gif") with ([ch "."] ++ js "gif").
  rewrite <- !matchesPrefix_all, !matchesPrefix_app, !length_app, !orb_false_r.
  change (length [ch "."]) with 1.
  rewrite !skipn_skipn, !(Nat.add_comm _ 1), <- ?andb_assoc.
  repeat (match goal with
          | |- context [matchesPrefix true ?s ?p] =>
              let E := fresh "E" in destruct (matchesPrefix true s p) eqn:E
          | |- context [isNil ?s] =>
              let E := fresh "E" in destruct (isNil s) eqn:E
          end; cbn [andb orb option_map endIndex]);
    try reflexivity;
    repeat match goal with
           | H : matchesPrefix _ _ _ = true |- _ =>
               apply matchesPrefix_length in H
           | H : isNil (skipn _ _) = true |- _ => apply isNil_skipn in H
           end;
    rewrite ?length_skipn in *; cbn [length] in *;
    try (f_equal; lia).
Qed.

(** Replacing the first match of [altExtensionRegex] by nothing cuts the
    text at its leftmost suffix that is an extension. *)
Lemma searchFrom_altExtension :
  forall rest i,
    match searchFrom altExtensionRegex i rest with
    | None => rest
    | Some m =>
        firstn (m_index m - i) rest
        ++ skipn (m_index m - i + length (m_full m)) rest
    end
    = cutAtSuffix isExtension rest.
Proof.
  induction rest as [|c rest IH]; intros i; rewrite searchFrom_unfold;
    pose proof (run_altExtension i) as R; cbn [ignoreCase altExtensionRegex].
  - specialize (R []).
    destruct (run true _ _) as [|y l]; cbn in R |- *; [reflexivity|].
    now destruct (firstn (endIndex y - i) []).
  - specialize (R (c :: rest)). cbn [cutAtSuffix].
    destruct (run true _ _) as [|y l]; cbn [hd_error option_map] in R;
      destruct (isExtension (c :: rest)); try discriminate.
    + specialize (IH (S i)).
      destruct (searchFrom altExtensionRegex (S i) rest) as [m|] eqn:F;
        [|now f_equal].
      apply searchFrom_Some in F as (k & y & l & _ & _ & ->).
      cbn [m_index m_full] in IH |- *.
      replace (S i + k - i) with (S (S i + k - S i)) by lia.
      cbn [firstn skipn Nat.add app]. now f_equal.
    + injection R as R. cbn [m_index m_full]. rewrite R, Nat.sub_diag.
      cbn [firstn app Nat.add]. rewrite skipn_length_firstn.
      apply skipn_all2. cbn [length]. lia.
Qed.

Lemma replace_altExtension (s : jsstring) :
  replaceRe s altExtensionRegex [] = cutAtSuffix isExtension s.
Proof.
  rewrite <- (searchFrom_altExtension s 0).
  unfold replaceRe, exec. cbn [Nat.ltb Nat.leb skipn app].
  destruct (searchFrom altExtensionRegex 0 s); [|reflexivity].
  now rewrite Nat.sub_0_r.
Qed.

(** ** Cutting at an extension, in the specification's words *)

Lemma endsWithIgnoringCase_cons (c : N) (t e : jsstring) :
  endsWithIgnoringCase (c :: t) e
  = if length e <=? length t then endsWithIgnoringCase t e
    else equalIgnoringCase (c :: t) e.
Proof.
  unfold endsWithIgnoringCase. cbn [length].
  destruct (Nat.leb_spec (length e) (length t)) as [H|H].
  - now replace (S (length t) - length e) with (S (length t - length e)) by lia.
  - now replace (S (length t) - length e) with 0 by lia.
Qed.

Lemma endsWithIgnoringCase_length (s e : jsstring) :
  endsWithIgnoringCase s e = true -> length e <= length s.
Proof.
  unfold endsWithIgnoringCase. intros H.
  apply equalIgnoringCase_length in H. rewrite length_skipn in H. lia.
Qed.

Lemma equal_endsWithIgnoringCase (s e : jsstring) :
  equalIgnoringCase s e = true -> endsWithIgnoringCase s e = true.
Proof.
  intros H. unfold endsWithIgnoringCase.
  rewrite (equalIgnoringCase_length _ _ H), Nat.sub_diag. exact H.
Qed.

Lemma find_ext_in (A : Type) (f g : A -> bool) (l : list A) :
  (forall x, In x l -> f x = g x) -> find f l = find g l.
Proof.
  induction l as [|a l IH]; intros H; cbn; [reflexivity|].
  rewrite <- (H a) by now left.
  destruct (f a); [reflexivity|]. apply IH. intros x Hx. apply H. now right.
Qed.

(** A text that reads [.jpeg] does not end with one of the three-letter
    extensions: its second character is a [j], not a dot. *)
Lemma jpeg_ends_with_no_other (s e : jsstring) :
  equalIgnoringCase s (js ".jpeg") = true ->
  In e imageExtensions ->
  endsWithIgnoringCase s e = true ->
  length s <= length e.
Proof.
  intros H Hin He. pose proof (equalIgnoringCase_length _ _ H) as L.
  destruct s as [|a1 [|a2 [|a3 [|a4 [|a5 [|a6 s]]]]]]; try discriminate L.
  cbn in H. apply andb_true_iff in H as [_ H].
  apply andb_true_iff in H as [H _]. apply N.eqb_eq in H.
  unfold endsWithIgnoringCase in He.
  destruct Hin as [<-|[<-|[<-|[<-|[]]]]]; cbn in He |- *; try lia;
    apply andb_true_iff in He as [He _]; apply N.eqb_eq in He;
    rewrite H in He; discriminate He.
Qed.

Lemma cutAtSuffix_extension (s : jsstring) :
  cutAtSuffix isExtension s = stripImageExtension s.
Proof.
  induction s as [|c t IH]; [vm_compute; reflexivity|].
  cbn [cutAtSuffix]. unfold stripImageExtension.
  destruct (isExtension (c :: t)) eqn:X.
  - apply existsb_exists in X as (e0 & Hin0 & H0).
    destruct (find _ _) as [e|] eqn:F.
    + apply find_some in F as [Hin He].
      assert (L : length (c :: t) <= length e).
      { pose proof (equalIgnoringCase_length _ _ H0) as L0.
        destruct Hin0 as [<-|[<-|[<-|[<-|[]]]]];
          try (destruct Hin as [<-|[<-|[<-|[<-|[]]]]];
               cbn [length js map list_ascii_of_string] in *; lia).
        now apply jpeg_ends_with_no_other. }
      replace (length (c :: t) - length e) with 0 by lia. reflexivity.
    + apply (find_none _ _ F) in Hin0.
      now rewrite equal_endsWithIgnoringCase in Hin0.
  - rewrite IH. unfold stripImageExtension.
    assert (X' : forall e, In e imageExtensions ->
                           equalIgnoringCase (c :: t) e = false).
    { intros e Hin. destruct (equalIgnoringCase (c :: t) e) eqn:E;
        [|reflexivity].
      assert (isExtension (c :: t) = true)
        by (apply existsb_exists; now exists e).
      congruence. }
    rewrite (@find_ext_in _ (endsWithIgnoringCase (c :: t))
               (endsWithIgnoringCase t) imageExtensions).
    + destruct (find _ _) as [e|] eqn:F; [|reflexivity].
      apply find_some in F as [_ He].
      apply endsWithIgnoringCase_length in He. cbn [length].
      now replace (S (length t) - length e)
        with (S (length t - length e)) by lia.
    + intros e Hin. rewrite endsWithIgnoringCase_cons.
      destruct (Nat.leb_spec (length e) (length t)) as [H|H];
        [reflexivity|].
      rewrite (X' e Hin). symmetry.
      destruct (endsWithIgnoringCase t e) eqn:E; [|reflexivity].
      apply endsWithIgnoringCase_length in E. lia.
Qed.

(** ** The last step *)

Lemma slice_tail (c : N) (t : jsstring) : slice (c :: t) 1 None = t.
Proof.
  unfold slice, relIndex. cbn [Z.ltb Z.compare].
  rewrite Z.min_l by (cbn [length]; lia).
  replace (Z.to_nat (Z.of_nat (length (c :: t)) - 1)) with (length t)
    by (cbn [length]; lia).
  cbn. apply firstn_all.
Qed.

(* ================================================================== *)
(** * Claims *)
(* ================================================================== *)

(** C1, as the code has it.  For [![A screenshot of the login page]
    (./assets/login.png)] the rewrite contains the WebP [srcset], the
    [image/webp] type, the original [src] and [loading="lazy"]; the alt text
    is kept whole, [alt="A screenshot of the login page"], because the words
    pattern is anchored at the start of the alt text and this one starts
    with [A].  The same alt text without the article is stripped and
    capitalised to [The login page]. *)
Theorem asset_rewrite_shape (unicodeUpper : N -> jsstring) :
  let result :=
    optimizeMarkdownImage unicodeUpper Options.default
      (js "A screenshot of the login page") (js "./assets/login.png") in
  includes result (attr (js "srcset") (js "./assets/login.webp")) = true
  /\ includes result (attr (js "type") (js "image/webp")) = true
  /\ includes result (attr (js "src") (js "./assets/login.png")) = true
  /\ includes result (attr (js "alt") (js "A screenshot of the login page"))
     = true
  /\ includes result (attr (js "loading") (js "lazy")) = true
  /\ optimizeAltText unicodeUpper Options.default
       (js "Screenshot of the login page")
     = js "The login page".
Proof. vm_compute. repeat split. Qed.

(** C1 as stated fails: the rewrite does not contain [alt="Login page"]. *)
Lemma asset_rewrite_shape_counterexample :
  includes
    (optimizeMarkdownImage plainUpper Options.default
       (js "A screenshot of the login page") (js "./assets/login.png"))
    (attr (js "alt") (js "Login page"))
  = false.
Proof. vm_compute. reflexivity. Qed.

(** C2.  [optimizeAltText] computes the four steps in order: strip a
    leading redundant prefix, strip a trailing image extension, trim,
    capitalise the first character of what is left, if anything; an empty
    alt text, and any alt text when the option is off, is returned as it is.
    [diagram.PNG] becomes [Diagram]. *)
Theorem optimizeAltText_steps
  (unicodeUpper : N -> jsstring) (options : Options.t) (alt : jsstring) :
  optimizeAltText unicodeUpper options alt
  = altTextSteps unicodeUpper options alt
  /\ optimizeAltText unicodeUpper Options.default (js "diagram.PNG")
     = js "Diagram"
  /\ optimizeAltText unicodeUpper options [] = []
  /\ (forall lazy webp dimensions backup,
         optimizeAltText unicodeUpper
           (Options.mk lazy webp dimensions false backup) alt
         = alt).
Proof.
  split; [|split; [vm_compute; reflexivity|split]].
  - unfold optimizeAltText, altTextSteps.
    destruct alt as [|a alt]; [reflexivity|].
    cbn [strEq orb]. destruct (Options.optimizeAltText options);
      cbn [negb]; [|reflexivity].
    rewrite replace_redundantWords, replace_altExtension,
      cutAtSuffix_extension.
    destruct (trim _) as [|c t]; [reflexivity|].
    cbn [strEq negb capitalizeFirst]. now rewrite slice_tail.
  - reflexivity.
  - intros lazy webp dimensions backup. unfold optimizeAltText.
    cbn [Options.optimizeAltText negb]. now rewrite orb_true_r.
Qed.

(** C3.  A markdown reference whose path does not contain [assets/] is
    rewritten to [![alt](path)], which is the text the scanner matched,
    whatever the options are. *)
Theorem non_asset_passthrough
  (unicodeUpper : N -> jsstring) (options : Options.t)
  (content fullText alt path : jsstring) (i : nat) :
  In (MarkdownImage fullText alt path i) (analyzeImages content) ->
  includes path (js "assets/") = false ->
  optimizeMarkdownImage unicodeUpper options alt path
  = js "![" ++ alt ++ js "](" ++ path ++ js ")"
  /\ optimizeMarkdownImage unicodeUpper options alt path = fullText.
Proof.
  intros H NA.
  assert (E : isAssetImage path = false).
  { destruct (isAssetImage path) eqn:E; [|reflexivity].
    apply isAssetImage_assets in E. congruence. }
  apply analyzeImages_markdown in H as (-> & _ & _).
  split; now apply optimizeMarkdownImage_non_asset.
Qed.

Lemma non_asset_passthrough_witness :
  optimizeMarkdownImage plainUpper (Options.mk false false false false false)
    (js "Remote logo") (js "https://example.com/img/logo.png")
  = js "![Remote logo](https://example.com/img/logo.png)".
Proof.
  refine (proj2 (@non_asset_passthrough plainUpper _
                   (js "See ![Remote logo](https://example.com/img/logo.png).")
                   _ _ _ 4 _ _)).
  - vm_compute. left. reflexivity.
  - vm_compute. reflexivity.
Defined.

(** C4, as the code has it.  A path is classified as an asset image exactly
    when it starts with [./assets/], starts with [../assets/] or contains
    [/assets/], which comes to containing [/assets/]; such a path contains
    [assets/], and the classification decides between the [<picture>]
    rewrite and the unchanged [![alt](path)]. *)
Theorem asset_classification
  (unicodeUpper : N -> jsstring) (options : Options.t) (alt path : jsstring) :
  isAssetImage path
  = (startsWith path (js "./assets/") || startsWith path (js "../assets/")
     || includes path (js "/assets/"))
  /\ isAssetImage path = includes path (js "/assets/")
  /\ (isAssetImage path = true -> includes path (js "assets/") = true)
  /\ (isAssetImage path = true ->
      startsWith (optimizeMarkdownImage unicodeUpper options alt path)
                 (js "<picture>") = true)
  /\ (isAssetImage path = false ->
      optimizeMarkdownImage unicodeUpper options alt path
      = js "![" ++ alt ++ js "](" ++ path ++ js ")").
Proof.
  split; [reflexivity|]. split; [apply isAssetImage_includes|].
  split; [apply isAssetImage_assets|].
  split; [apply optimizeMarkdownImage_asset
         | apply optimizeMarkdownImage_non_asset].
Qed.

Lemma asset_classification_witness :
  includes (js "../assets/img/logo.png") (js "assets/") = true
  /\ startsWith (optimizeMarkdownImage plainUpper Options.default
                   (js "Logo") (js "../assets/img/logo.png"))
                (js "<picture>") = true
  /\ optimizeMarkdownImage plainUpper Options.default
       (js "Logo") (js "assets/logo.png")
     = js "![Logo](assets/logo.png)".
Proof.
  pose proof (asset_classification plainUpper Options.default
                (js "Logo") (js "../assets/img/logo.png"))
    as (_ & _ & A & B & _).
  pose proof (asset_classification plainUpper Options.default
                (js "Logo") (js "assets/logo.png"))
    as (_ & _ & _ & _ & C).
  split; [apply A; vm_compute; reflexivity|].
  split; [apply B; vm_compute; reflexivity | apply C; vm_compute; reflexivity].
Defined.

(** C4 as stated fails: [assets/logo.png] contains [assets/], yet it is not
    classified as an asset image and is left as it was. *)
Lemma asset_classification_counterexample :
  includes (js "assets/logo.png") (js "assets/") = true
  /\ isAssetImage (js "assets/logo.png") = false
  /\ optimizeMarkdownImage plainUpper Options.default
       (js "Logo") (js "assets/logo.png")
     = js "![Logo](assets/logo.png)".
Proof. vm_compute. repeat split. Qed.

(** C5 at its failing input.  With [addLazyLoading] switched off, the
    reference [![Logo](./assets/logo.png)], which has no [loading=], is
    rewritten to text that carries [loading="lazy"]; the HTML tag
    [<img src="a.png">] under the same options gets none. *)
Theorem lazy_option_ignored_for_markdown :
  let options := Options.mk false true true true true in
  includes (js "![Logo](./assets/logo.png)") (js "loading=") = false
  /\ includes (optimizeMarkdownImage plainUpper options
                 (js "Logo") (js "./assets/logo.png"))
              (attr (js "loading") (js "lazy")) = true
  /\ includes (fst (optimizeImageReferences plainUpper options Stats.initial
                      (js "![Logo](./assets/logo.png)")))
              (attr (js "loading") (js "lazy")) = true
  /\ includes (optimizeHtmlImage options
                 (js "<img " ++ attr (js "src") (js "a.png") ++ js ">")
                 (js "a.png"))
              (js "loading=") = false.
Proof. vm_compute. repeat split. Qed.

(** C6, as the code has it.  The scanner accepts an empty alt text but not
    an empty path: every markdown image it reports has a non-empty path,
    [![](a.png)] is reported with the empty alt text, and [![alt]()] is not
    reported at all. *)
Theorem scanner_empty_alt_nonempty_path :
  (forall content fullText alt path i,
      In (MarkdownImage fullText alt path i) (analyzeImages content) ->
      path <> [])
  /\ analyzeImages (js "![](a.png)")
     = [MarkdownImage (js "![](a.png)") [] (js "a.png") 0]
  /\ analyzeImages (js "![alt]()") = [].
Proof.
  split; [|split; vm_compute; reflexivity].
  intros content f a s i H. now apply analyzeImages_markdown in H.
Qed.

Lemma scanner_empty_alt_nonempty_path_witness : js "a.png" <> [].
Proof.
  refine (proj1 scanner_empty_alt_nonempty_path
                (js "![](a.png)") (js "![](a.png)") [] (js "a.png") 0 _).
  vm_compute. left. reflexivity.
Defined.

(** C6 as stated fails: in the document [![alt]()] the scanner finds no
    markdown image with an empty path (it finds no image at all). *)
Lemma scanner_empty_path_counterexample :
  ~ exists fullText alt i,
      In (MarkdownImage fullText alt [] i) (analyzeImages (js "![alt]()")).
Proof. intros (f & a & i & H). scan_in H. exact H. Qed.

(** C7.  Round trip when nothing changes: a document in which the scanner
    finds no image, and likewise a document in which it finds only markdown
    images that are not assets, comes back from [optimizeImageReferences]
    equal to the input, with the statistics as they were. *)
Theorem roundtrip_identity
  (unicodeUpper : N -> jsstring) (options : Options.t)
  (stats0 : Stats.t) (content : jsstring) :
  (analyzeImages content = [] ->
   optimizeImageReferences unicodeUpper options stats0 content
   = (content, stats0))
  /\ ((forall image, In image (analyzeImages content) ->
                     isMarkdown image = true
                     /\ isAssetImage (src image) = false) ->
      optimizeImageReferences unicodeUpper options stats0 content
      = (content, stats0)).
Proof.
  assert (R : (forall image, In image (analyzeImages content) ->
                             isMarkdown image = true
                             /\ isAssetImage (src image) = false) ->
              optimizeImageReferences unicodeUpper options stats0 content
              = (content, stats0)).
  { intros H. unfold optimizeImageReferences.
    rewrite fold_reassemble_unchanged; [reflexivity|].
    intros image Hin. destruct (H image Hin) as [M A].
    unfold changed. now rewrite (optimizeImage_markdown _ _ _ _ Hin M). }
  split; [|exact R].
  intros E. apply R. rewrite E. intros image [].
Qed.

Lemma roundtrip_identity_witness :
  optimizeImageReferences plainUpper Options.default Stats.initial
    (js "Just text, with [a link](./assets/a.png) and no image.")
  = (js "Just text, with [a link](./assets/a.png) and no image.",
     Stats.initial)
  /\ optimizeImageReferences plainUpper Options.default Stats.initial
       (js "One ![first](img/one.png), two ![second](https://h.org/two.jpg).")
     = (js "One ![first](img/one.png), two ![second](https://h.org/two.jpg).",
        Stats.initial).
Proof.
  split.
  - apply (proj1 (roundtrip_identity plainUpper Options.default Stats.initial
                    (js "Just text, with [a link](./assets/a.png) and no image."))).
    vm_compute. reflexivity.
  - apply (proj2 (roundtrip_identity plainUpper Options.default Stats.initial
                    (js "One ![first](img/one.png), two ![second](https://h.org/two.jpg)."))).
    intros image H. scan_in H.
    destruct H as [<-|[<-|[]]]; split; vm_compute; reflexivity.
Defined.

(** C8.  The counter [imagesOptimized] grows by the number of scanned
    images whose rewrite differs from their matched text; when all images
    are markdown images, that is the number of asset images among them,
    those whose path starts with [./assets/] or [../assets/] or contains
    [/assets/].  So a document with three markdown images of which exactly
    one is an asset image adds 1, as the one with [./assets/two.png] does,
    and a document without images adds 0. *)
Theorem optimized_count
  (unicodeUpper : N -> jsstring) (options : Options.t)
  (stats0 : Stats.t) (content : jsstring) :
  Stats.imagesOptimized
    (snd (optimizeImageReferences unicodeUpper options stats0 content))
  = Stats.imagesOptimized stats0
    + length (filter (changed unicodeUpper options) (analyzeImages content))
  /\ ((forall image, In image (analyzeImages content) ->
                      isMarkdown image = true) ->
      Stats.imagesOptimized
        (snd (optimizeImageReferences unicodeUpper options stats0 content))
      = Stats.imagesOptimized stats0
        + length (filter (fun image => isAssetImage (src image))
                         (analyzeImages content)))
  /\ ((forall image, In image (analyzeImages content) ->
                      isMarkdown image = true) ->
      length (analyzeImages content) = 3 ->
      length (filter (fun image => isAssetImage (src image))
                     (analyzeImages content)) = 1 ->
      Stats.imagesOptimized
        (snd (optimizeImageReferences unicodeUpper options stats0 content))
      = Stats.imagesOptimized stats0 + 1)
  /\ (analyzeImages content = [] ->
      Stats.imagesOptimized
        (snd (optimizeImageReferences unicodeUpper options stats0 content))
      = Stats.imagesOptimized stats0)
  /\ Stats.imagesOptimized
       (snd (optimizeImageReferences unicodeUpper options Stats.initial
               (js "![a](one.png) ![b](./assets/two.png) ![c](http://h/3.jpg)")))
     = 1
  /\ Stats.imagesOptimized
       (snd (optimizeImageReferences unicodeUpper options Stats.initial
               (js "No image here.")))
     = 0.
Proof.
  assert (G : forall s c,
             Stats.imagesOptimized
               (snd (optimizeImageReferences unicodeUpper options s c))
             = Stats.imagesOptimized s
               + length (filter (changed unicodeUpper options)
                                (analyzeImages c))).
  { intros s c. unfold optimizeImageReferences. cbn [snd].
    now rewrite fold_reassemble_count. }
  split; [apply G|]. split; [|split; [|split]].
  - intros H. now rewrite G, changed_markdown_only.
  - intros H _ One. now rewrite G, changed_markdown_only, One.
  - intros E. rewrite G, E. cbn [filter length]. lia.
  - split; rewrite G; vm_compute; reflexivity.
Qed.

Lemma optimized_count_witness :
  Stats.imagesOptimized
    (snd (optimizeImageReferences plainUpper Options.default
            (Stats.mk 2 5 2)
            (js "![a](../assets/a.png) and ![b](b.gif) and ![c](x/assets/c.jpeg)")))
  = 5 + 2
  /\ Stats.imagesOptimized
       (snd (optimizeImageReferences plainUpper Options.default
               (Stats.mk 2 5 2)
               (js "![a](one.png) ![b](docs/assets/two.png) ![c](http://h/3.jpg)")))
     = 5 + 1.
Proof.
  split.
  - rewrite (proj1 (proj2 (optimized_count plainUpper Options.default
                             (Stats.mk 2 5 2)
                             (js "![a](../assets/a.png) and ![b](b.gif) and ![c](x/assets/c.jpeg)")))).
    + vm_compute. reflexivity.
    + intros image H. scan_in H.
      destruct H as [<-|[<-|[<-|[]]]]; reflexivity.
  - apply (proj1 (proj2 (proj2 (optimized_count plainUpper Options.default
                                  (Stats.mk 2 5 2)
                                  (js "![a](one.png) ![b](docs/assets/two.png) ![c](http://h/3.jpg)"))))).
    + intros image H. scan_in H.
      destruct H as [<-|[<-|[<-|[]]]]; reflexivity.
    + vm_compute. reflexivity.
    + vm_compute. reflexivity.
Defined.

(** C8 as stated fails: of the three markdown images of this document
    exactly one is under [assets/], it is not an asset image, none is
    rewritten, and the count is 0. *)
Lemma optimized_count_counterexample :
  let content := js "![a](one.png) ![b](assets/two.png) ![c](http://h/3.jpg)" in
  map src (analyzeImages content)
  = [js "one.png"; js "assets/two.png"; js "http://h/3.jpg"]
  /\ forallb isMarkdown (analyzeImages content) = true
  /\ map (fun image => includes (src image) (js "assets/"))
         (analyzeImages content)
     = [false; true; false]
  /\ isAssetImage (js "assets/two.png") = false
  /\ optimizeImageReferences plainUpper Options.default Stats.initial content
     = (content, Stats.initial).
Proof. vm_compute. repeat split. Qed.

(** C9.  An HTML tag that contains [loading=] and also [<picture>] or
    [srcset] is returned as it is; so is
    [<img src="x.png" loading="lazy" srcset="x.webp">], by the rewriter
    and by the whole pipeline. *)
Theorem already_optimized_unchanged
  (unicodeUpper : N -> jsstring) (options : Options.t) :
  (forall imgTag path,
      includes imgTag (js "loading=") = true ->
      includes imgTag (js "<picture>") || includes imgTag (js "srcset") = true ->
      optimizeHtmlImage options imgTag path = imgTag)
  /\ (let tag := js "<img " ++ attr (js "src") (js "x.png") ++ js " "
                 ++ attr (js "loading") (js "lazy") ++ js " "
                 ++ attr (js "srcset") (js "x.webp") ++ js ">" in
      optimizeHtmlImage options tag (js "x.png") = tag
      /\ optimizeImageReferences unicodeUpper options Stats.initial tag
         = (tag, Stats.initial)).
Proof.
  split.
  - intros imgTag path H1 H2. unfold optimizeHtmlImage. now rewrite H1, H2.
  - vm_compute. split; reflexivity.
Qed.

Lemma already_optimized_unchanged_witness :
  optimizeHtmlImage Options.default
    (js "<img srcset='x.webp' src='x.png' loading=eager>") (js "x.png")
  = js "<img srcset='x.webp' src='x.png' loading=eager>".
Proof.
  apply (proj1 (already_optimized_unchanged plainUpper Options.default));
    vm_compute; reflexivity.
Defined.

(** C10.  The test for an existing lazy-loading attribute is containment of
    [loading=]: a tag that contains it anywhere is rewritten as if
    [addLazyLoading] were off, that is, it is returned as it is or with the
    style insertion only.  [<img data-loading="x" src="a.png">] gets the
    style and no [loading="lazy"]. *)
Theorem loading_substring_blocks_insertion
  (options : Options.t) (imgTag path : jsstring) :
  (includes imgTag (js "loading=") = true ->
   (optimizeHtmlImage options imgTag path = imgTag
    \/ optimizeHtmlImage options imgTag path = withResponsiveStyle imgTag)
   /\ optimizeHtmlImage options imgTag path
      = optimizeHtmlImage (Options.mk false true true true true) imgTag path)
  /\ optimizeHtmlImage options
       (js "<img " ++ attr (js "data-loading") (js "x") ++ js " "
        ++ attr (js "src") (js "a.png") ++ js ">")
       (js "a.png")
     = js "<img " ++ attr (js "style") (js "max-width: 100%; height: auto;")
       ++ js " " ++ attr (js "data-loading") (js "x") ++ js " "
       ++ attr (js "src") (js "a.png") ++ js ">".
Proof.
  split; [|vm_compute; reflexivity].
  intros H. unfold optimizeHtmlImage. rewrite H. cbn [negb andb].
  destruct (includes imgTag (js "<picture>") || includes imgTag (js "srcset"));
    cbn [andb]; [auto|].
  split; [|reflexivity].
  destruct (negb (includes imgTag (js "style="))
            && negb (includes imgTag (js "max-width"))); auto.
Qed.

Lemma loading_substring_blocks_insertion_witness :
  optimizeHtmlImage Options.default
    (js "<img src='a.png' alt='downloading=fast'>") (js "a.png")
  = optimizeHtmlImage (Options.mk false true true true true)
      (js "<img src='a.png' alt='downloading=fast'>") (js "a.png").
Proof.
  apply (proj1 (loading_substring_blocks_insertion Options.default
                  (js "<img src='a.png' alt='downloading=fast'>")
                  (js "a.png"))).
  vm_compute. reflexivity.
Defined.

(* ================================================================== *)
(** * Further properties *)
(* ================================================================== *)

(** ** The scanner reports each kind in document order *)

Lemma whileExec_inOrder (re : RegExp) (input : jsstring)
  (image : MatchResult -> Image) :
  (forall m, full (image m) = m_full m /\ index (image m) = m_index m) ->
  forall fuel i,
    i <= length input ->
    inOrder (skipn i input) i (map image (whileExec fuel re input i)).
Proof.
  intros Himage. induction fuel as [|fuel IH]; intros i Hi; cbn; [exact I|].
  destruct (exec re input i) as [m|] eqn:E; cbn; [|exact I].
  destruct (exec_span _ _ _ E) as (A & B & C & D).
  destruct (Himage m) as [-> ->]. rewrite length_skipn, !skipn_skipn.
  replace (m_index m - i + i) with (m_index m) by lia.
  replace (m_index m - i + length (m_full m) + i) with (m_lastIndex m) by lia.
  rewrite <- B. repeat split; try assumption; try lia.
  apply IH. lia.
Qed.

Lemma filter_kind_map (kind : bool) (image : MatchResult -> Image)
  (l : list MatchResult) :
  (forall m, isMarkdown (image m) = kind) ->
  filter isMarkdown (map image l) = (if kind then map image l else [])
  /\ filter (fun i => negb (isMarkdown i)) (map image l)
     = (if kind then [] else map image l).
Proof.
  intros H. induction l as [|m l [IH1 IH2]]; cbn; [now destruct kind|].
  rewrite H, IH1, IH2. now destruct kind.
Qed.

Lemma analyzeImages_kinds (content : jsstring) :
  filter isMarkdown (analyzeImages content)
  = map (fun m => MarkdownImage (m_full m) (group 1 m) (group 2 m) (m_index m))
        (whileExec (S (length content)) imageRegex content 0)
  /\ filter (fun i => negb (isMarkdown i)) (analyzeImages content)
     = map (fun m => HtmlImage (m_full m) (group 1 m) (m_index m))
           (whileExec (S (length content)) htmlImageRegex content 0).
Proof.
  unfold analyzeImages. rewrite !filter_app.
  destruct (@filter_kind_map true
              (fun m => MarkdownImage (m_full m) (group 1 m) (group 2 m)
                          (m_index m))
              (whileExec (S (length content)) imageRegex content 0)
              (fun _ => eq_refl)) as [-> ->].
  destruct (@filter_kind_map false
              (fun m => HtmlImage (m_full m) (group 1 m) (m_index m))
              (whileExec (S (length content)) htmlImageRegex content 0)
              (fun _ => eq_refl)) as [-> ->].
  now rewrite app_nil_r.
Qed.

Lemma analyzeImages_inOrder_kind (content : jsstring) :
  inOrder content 0 (filter isMarkdown (analyzeImages content))
  /\ inOrder content 0
       (filter (fun i => negb (isMarkdown i)) (analyzeImages content)).
Proof.
  destruct (analyzeImages_kinds content) as [-> ->]. split.
  - apply (@whileExec_inOrder imageRegex content
             (fun m => MarkdownImage (m_full m) (group 1 m) (group 2 m)
                         (m_index m))
             (fun _ => conj eq_refl eq_refl)
             (S (length content)) 0 (Nat.le_0_l _)).
  - apply (@whileExec_inOrder htmlImageRegex content
             (fun m => HtmlImage (m_full m) (group 1 m) (m_index m))
             (fun _ => conj eq_refl eq_refl)
             (S (length content)) 0 (Nat.le_0_l _)).
Qed.

(** ** The offset bookkeeping *)

Lemma slice_prefix (s : jsstring) (k : nat) :
  k <= length s -> slice s 0 (Some (Z.of_nat k)) = firstn k s.
Proof.
  intros H. unfold slice, relIndex.
  destruct (Z.ltb_spec (Z.of_nat k) 0) as [L|L]; [lia|]. cbn [Z.ltb Z.compare].
  rewrite Z.min_l, Z.min_l by lia.
  rewrite Z.sub_0_r, Nat2Z.id. reflexivity.
Qed.

Lemma slice_suffix (s : jsstring) (k : nat) :
  k <= length s -> slice s (Z.of_nat k) None = skipn k s.
Proof.
  intros H. unfold slice, relIndex.
  destruct (Z.ltb_spec (Z.of_nat k) 0) as [L|L]; [lia|].
  rewrite Z.min_l by lia. rewrite Nat2Z.id.
  apply firstn_all2. rewrite length_skipn. lia.
Qed.

Section Splice.
Variable unicodeUpper : N -> jsstring.
Variable options : Options.t.

(** The loop keeps the text as the part already rebuilt followed by the
    part of the original not yet reached, with [offset] the difference of
    their positions; so it ends with the spliced text. *)
Lemma fold_reassemble_spliced (images : list Image) :
  forall (done rest : jsstring) (from : nat) (st : Reassembly),
    optimizedContent st = done ++ rest ->
    offset st = (Z.of_nat (length done) - Z.of_nat from)%Z ->
    inOrder rest from images ->
    optimizedContent (fold_left (reassemble unicodeUpper options) images st)
    = done ++ spliced unicodeUpper options rest from images.
Proof.
  induction images as [|image images IH]; intros done rest from st Hc Ho Hin;
    cbn [fold_left spliced]; [exact Hc|].
  destruct Hin as (A & B & C & D).
  set (gap := index image - from) in *.
  set (f := full image) in *.
  set (o := optimizeImage unicodeUpper options image).
  assert (Hrest : rest = firstn gap rest ++ f
                         ++ skipn (gap + length f) rest).
  { rewrite <- (firstn_skipn gap rest) at 1. f_equal.
    rewrite <- (firstn_skipn (length f) (skipn gap rest)) at 1.
    now rewrite C, skipn_skipn, (Nat.add_comm (length f)). }
  assert (Lgap : length (firstn gap rest) = gap)
    by (rewrite length_firstn; lia).
  rewrite app_assoc, (app_assoc _ o).
  apply IH; [| |exact D].
  - unfold reassemble. fold o f.
    destruct (negb (strEq o f)) eqn:E; cbn [optimizedContent].
    + rewrite Ho, Hc.
      replace (Z.of_nat (index image) + (Z.of_nat (length done) - Z.of_nat from))%Z
        with (Z.of_nat (length done + gap)) by lia.
      rewrite <- Nat2Z.inj_add.
      rewrite slice_prefix, slice_suffix by (rewrite length_app; lia).
      rewrite firstn_app_2, <- Nat.add_assoc, skipn_length_app.
      now rewrite <- !app_assoc.
    + apply negb_false_iff, strEq_spec in E. rewrite E, Hc.
      rewrite Hrest at 1. now rewrite <- !app_assoc.
  - unfold reassemble. fold o f.
    destruct (negb (strEq o f)) eqn:E; cbn [offset].
    + rewrite Ho, !length_app, Lgap. lia.
    + apply negb_false_iff, strEq_spec in E.
      rewrite Ho, !length_app, Lgap, E. lia.
Qed.
End Splice.

(** ** Further properties of the scanner and the reassembler *)

Lemma analyzeImages_exec (content : jsstring) (image : Image) :
  In image (analyzeImages content) ->
  exists re m j,
    exec re content j = Some m
    /\ nonEmpty (pattern re) = true
    /\ full image = m_full m /\ index image = m_index m.
Proof.
  unfold analyzeImages. rewrite in_app_iff, !in_map_iff.
  intros [(m & <- & Hm)|(m & <- & Hm)];
    apply whileExec_In in Hm as (j & Hj).
  - now exists imageRegex, m, j.
  - now exists htmlImageRegex, m, j.
Qed.

(** X1.  Whatever the document, an image the scanner reports, of either
    kind, has as [full] exactly the text the document holds at [index]; the
    text is not empty and lies inside the document. *)
Theorem scanned_image_span (content : jsstring) (image : Image) :
  In image (analyzeImages content) ->
  firstn (length (full image)) (skipn (index image) content) = full image
  /\ 0 < length (full image)
  /\ index image + length (full image) <= length content.
Proof.
  intros H. apply analyzeImages_exec in H as (re & m & j & E & NE & -> & ->).
  destruct (exec_span _ _ _ E) as (_ & B & C & D).
  split; [exact D|]. split; [|lia].
  apply exec_Some in E as (k & y & l & _ & Hrun & ->). cbn in *.
  assert (Hy : In y (run (ignoreCase re) (pattern re)
                         (mkState k (skipn k content) [])))
    by (rewrite Hrun; now left).
  apply (nonEmpty_run _ _ NE) in Hy. cbn in Hy. lia.
Qed.

Lemma scanned_image_span_witness :
  firstn (length (js "<img src='i.png'>"))
         (skipn 8 (js "An icon <img src='i.png'> here"))
  = js "<img src='i.png'>".
Proof.
  refine (proj1 (@scanned_image_span (js "An icon <img src='i.png'> here")
                   (HtmlImage (js "<img src='i.png'>") (js "i.png") 8) _)).
  vm_compute. left. reflexivity.
Defined.

(** X2.  The scanner lists the markdown images first and the HTML images
    after them; within each kind the images are in document order and do
    not overlap: each starts at or after the end of the one before it. *)
Theorem scanner_order (content : jsstring) :
  analyzeImages content
  = filter isMarkdown (analyzeImages content)
    ++ filter (fun i => negb (isMarkdown i)) (analyzeImages content)
  /\ inOrder content 0 (filter isMarkdown (analyzeImages content))
  /\ inOrder content 0
       (filter (fun i => negb (isMarkdown i)) (analyzeImages content)).
Proof.
  split; [|apply analyzeImages_inOrder_kind].
  destruct (analyzeImages_kinds content) as [-> ->]. reflexivity.
Qed.

(** X3.  When the scanned images are in document order, the reassembled
    text is the document with each image replaced by its rewrite and every
    character between, before and after the images kept.  That is so in
    particular when all images are of one kind. *)
Theorem reassembly_in_order
  (unicodeUpper : N -> jsstring) (options : Options.t)
  (stats0 : Stats.t) (content : jsstring) :
  (inOrder content 0 (analyzeImages content) ->
   fst (optimizeImageReferences unicodeUpper options stats0 content)
   = spliced unicodeUpper options content 0 (analyzeImages content))
  /\ ((forall image, In image (analyzeImages content) ->
                      isMarkdown image = true)
      \/ (forall image, In image (analyzeImages content) ->
                        isMarkdown image = false) ->
      fst (optimizeImageReferences unicodeUpper options stats0 content)
      = spliced unicodeUpper options content 0 (analyzeImages content)).
Proof.
  assert (G : inOrder content 0 (analyzeImages content) ->
              fst (optimizeImageReferences unicodeUpper options stats0 content)
              = spliced unicodeUpper options content 0
                  (analyzeImages content)).
  { intros H. unfold optimizeImageReferences. cbn [fst].
    now apply (@fold_reassemble_spliced unicodeUpper options
                 (analyzeImages content) [] content 0). }
  split; [exact G|]. intros H. apply G.
  destruct (analyzeImages_inOrder_kind content) as [Hm Hh].
  destruct H as [H|H].
  - replace (analyzeImages content)
      with (filter isMarkdown (analyzeImages content)); [exact Hm|].
    apply forallb_filter_id, forallb_forall. exact H.
  - replace (analyzeImages content)
      with (filter (fun i => negb (isMarkdown i))
                   (analyzeImages content)); [exact Hh|].
    apply forallb_filter_id, forallb_forall. intros image Hin.
    now rewrite (H image Hin).
Qed.

Lemma reassembly_in_order_witness :
  fst (optimizeImageReferences plainUpper Options.default Stats.initial
         (js "a ![x](./assets/x.png) b <img src='y.png'> c"))
  = js "a " ++ optimizeMarkdownImage plainUpper Options.default
                 (js "x") (js "./assets/x.png")
    ++ js " b " ++ optimizeHtmlImage Options.default
                     (js "<img src='y.png'>") (js "y.png")
    ++ js " c".
Proof.
  rewrite (proj1 (reassembly_in_order plainUpper Options.default Stats.initial
                    (js "a ![x](./assets/x.png) b <img src='y.png'> c"))).
  - vm_compute. reflexivity.
  - let v := eval vm_compute in
        (analyzeImages (js "a ![x](./assets/x.png) b <img src='y.png'> c")) in
    assert (E : analyzeImages (js "a ![x](./assets/x.png) b <img src='y.png'> c")
                = v) by (vm_compute; reflexivity).
    rewrite E. vm_compute. repeat split; repeat constructor.
Defined.

(** ** The HTML rewrite *)

Lemma replaceStr_found (s p r : jsstring) :
  includes s p = true ->
  exists u v, s = u ++ p ++ v /\ replaceStr s p r = u ++ r ++ v.
Proof.
  unfold includes, replaceStr.
  destruct (indexOf s p) as [i|] eqn:E; [intros _ | discriminate].
  apply indexOf_Some in E as (u & v & -> & <-). exists u, v.
  split; [reflexivity|].
  rewrite firstn_length_app, skipn_length_app.
  rewrite <- (Nat.add_0_r (length p)), skipn_length_app. reflexivity.
Qed.

Lemma replaceStr_absent (s p r : jsstring) :
  includes s p = false -> replaceStr s p r = s.
Proof.
  unfold includes, replaceStr. now destruct (indexOf s p).
Qed.

(** An occurrence of [p] in a text around [<img] lies before or after the
    [<img], when [p] has no [<], no [m], at least two characters and does
    not start with [g]. *)
Lemma occurrence_around_img (p u v x y : jsstring) :
  ~ In (ch "<") p -> ~ In (ch "m") p -> 1 < length p ->
  hd_error p <> Some (ch "g") ->
  u ++ js "<img" ++ v = x ++ p ++ y ->
  (exists w, u = x ++ p ++ w) \/ (exists w, v = w ++ p ++ y).
Proof.
  intros N1 N2 L G E. change (js "<img" ++ v)
    with (ch "<" :: [ch "i"] ++ ch "m" :: (ch "g" :: v)) in E.
  apply (@occurrence_split (ch "<") p N1) in E as [E|[w E]]; [now left|].
  right. apply (@occurrence_split (ch "m") p N2) in E as [[w' E]|[w' E]].
  - apply (f_equal (@length N)) in E. rewrite !length_app in E. cbn in E. lia.
  - destruct w' as [|c w']; cbn in E.
    + destruct p as [|c p]; [cbn in L; lia|]. injection E as Ec _.
      destruct G. cbn. now f_equal.
    + injection E as _ ->. now exists w'.
Qed.

(** Such a text, if it occurs in a tag, still occurs after an insertion
    behind [<img]. *)
Lemma includes_kept (p u v ins : jsstring) :
  ~ In (ch "<") p -> ~ In (ch "m") p -> 1 < length p ->
  hd_error p <> Some (ch "g") ->
  includes (u ++ js "<img" ++ v) p = true ->
  includes (u ++ (js "<img" ++ ins) ++ v) p = true.
Proof.
  intros N1 N2 L G H. apply includes_spec in H as (x & y & E).
  apply includes_spec.
  apply occurrence_around_img in E as [[w ->]|[w ->]]; try assumption.
  - exists x, (w ++ (js "<img" ++ ins) ++ v). now rewrite <- !app_assoc.
  - exists (u ++ (js "<img" ++ ins) ++ w), y. now rewrite <- !app_assoc.
Qed.

Lemma loading_kept (u v ins : jsstring) :
  includes (u ++ js "<img" ++ v) (js "loading=") = true ->
  includes (u ++ (js "<img" ++ ins) ++ v) (js "loading=") = true.
Proof.
  apply includes_kept; vm_compute; try lia; try discriminate;
    intuition discriminate.
Qed.

Lemma includes_replacement (u r v p : jsstring) :
  includes r p = true -> includes (u ++ r ++ v) p = true.
Proof.
  intros H. apply includes_spec in H as (a & b & ->).
  apply includes_spec. exists (u ++ a), (b ++ v). now rewrite <- !app_assoc.
Qed.

Lemma optimizeHtmlImage_steps (options : Options.t) (imgTag path : jsstring) :
  optimizeHtmlImage options imgTag path
  = if includes imgTag (js "loading=")
       && (includes imgTag (js "<picture>") || includes imgTag (js "srcset"))
    then imgTag
    else styleStep (lazyStep options imgTag).
Proof. reflexivity. Qed.

Lemma styleStep_absent (t : jsstring) :
  includes t (js "<img") = false -> styleStep t = t.
Proof.
  intros H. unfold styleStep. rewrite replaceStr_absent by exact H.
  now destruct (_ && _).
Qed.

Lemma styleStep_keeps_loading (t : jsstring) :
  includes t (js "loading=") = true ->
  includes (styleStep t) (js "loading=") = true.
Proof.
  intros H. unfold styleStep. destruct (_ && _); [|exact H].
  destruct (includes t (js "<img")) eqn:E.
  - destruct (replaceStr_found t (js "<img")
                (js "<img style=" ++ [dq]
                 ++ js "max-width: 100%; height: auto;" ++ [dq]) E)
      as (u & v & -> & ->).
    now apply (@loading_kept u v
                 (js " style=" ++ [dq]
                  ++ js "max-width: 100%; height: auto;" ++ [dq])).
  - now rewrite replaceStr_absent.
Qed.

(** After the style step a tag with [<img] has [style=] or [max-width]. *)
Lemma styleStep_styled (t : jsstring) :
  includes t (js "<img") = true ->
  includes (styleStep t) (js "style=")
  || includes (styleStep t) (js "max-width") = true.
Proof.
  intros H. unfold styleStep.
  destruct (includes t (js "style=")) eqn:E1; cbn [negb andb];
    [now rewrite E1|].
  destruct (includes t (js "max-width")) eqn:E2; cbn [negb andb];
    [now rewrite E1, E2|].
  destruct (replaceStr_found t (js "<img")
              (js "<img style=" ++ [dq]
               ++ js "max-width: 100%; height: auto;" ++ [dq]) H)
    as (u & v & -> & ->).
  rewrite includes_replacement; [reflexivity | vm_compute; reflexivity].
Qed.

Lemma styleStep_idempotent (t : jsstring) : styleStep (styleStep t) = styleStep t.
Proof.
  destruct (includes t (js "<img")) eqn:E.
  - pose proof (styleStep_styled t E) as H. unfold styleStep at 1.
    apply orb_true_iff in H as [->| ->]; cbn [negb andb]; [reflexivity|].
    now rewrite andb_false_r.
  - rewrite (styleStep_absent t E). exact (styleStep_absent t E).
Qed.

Section LazyStep.
Variable options : Options.t.

Lemma lazyStep_absent (t : jsstring) :
  includes t (js "<img") = false -> lazyStep options t = t.
Proof.
  intros H. unfold lazyStep. rewrite replaceStr_absent by exact H.
  now destruct (_ && _).
Qed.

(** After the lazy step a tag with [<img] has [loading=], if the option is
    on. *)
Lemma lazyStep_loading (t : jsstring) :
  Options.addLazyLoading options = true ->
  includes t (js "<img") = true ->
  includes (lazyStep options t) (js "loading=") = true.
Proof.
  intros On H. unfold lazyStep. rewrite On, andb_true_r.
  destruct (includes t (js "loading=")) eqn:E; cbn [negb]; [exact E|].
  destruct (replaceStr_found t (js "<img")
              (js "<img loading=" ++ [dq] ++ js "lazy" ++ [dq]) H)
    as (u & v & -> & ->).
  apply includes_replacement. vm_compute. reflexivity.
Qed.

Lemma lazyStep_keeps_img (t : jsstring) :
  includes t (js "<img") = true ->
  includes (lazyStep options t) (js "<img") = true.
Proof.
  intros H. unfold lazyStep. destruct (_ && _); [|exact H].
  destruct (replaceStr_found t (js "<img")
              (js "<img loading=" ++ [dq] ++ js "lazy" ++ [dq]) H)
    as (u & v & -> & ->).
  apply includes_replacement. vm_compute. reflexivity.
Qed.

(** What the two steps produce is left alone by the lazy step. *)
Lemma lazyStep_after_steps (t : jsstring) :
  lazyStep options (styleStep (lazyStep options t))
  = styleStep (lazyStep options t).
Proof.
  set (r := styleStep (lazyStep options t)).
  unfold lazyStep at 1.
  destruct (includes r (js "loading=")) eqn:Lr; [reflexivity|].
  destruct (Options.addLazyLoading options) eqn:On; [|reflexivity].
  cbn [negb andb].
  destruct (includes t (js "<img")) eqn:E.
  - pose proof (lazyStep_loading t On E) as H.
    apply styleStep_keeps_loading in H. fold r in H. congruence.
  - subst r. rewrite (lazyStep_absent t E), (styleStep_absent t E).
    now apply replaceStr_absent.
Qed.
End LazyStep.

(** X4.  Rewriting an HTML tag twice gives what rewriting it once gives,
    whatever the tag and the options. *)
Theorem optimizeHtmlImage_idempotent
  (options : Options.t) (imgTag path path' : jsstring) :
  optimizeHtmlImage options (optimizeHtmlImage options imgTag path) path'
  = optimizeHtmlImage options imgTag path.
Proof.
  rewrite (optimizeHtmlImage_steps options imgTag path).
  set (done := includes imgTag (js "loading=")
               && (includes imgTag (js "<picture>")
                   || includes imgTag (js "srcset"))).
  destruct done eqn:E.
  - rewrite optimizeHtmlImage_steps. fold done. now rewrite E.
  - set (r := styleStep (lazyStep options imgTag)).
    rewrite optimizeHtmlImage_steps.
    destruct (includes r (js "loading=")
              && (includes r (js "<picture>") || includes r (js "srcset")));
      [reflexivity|].
    subst r. now rewrite lazyStep_after_steps, styleStep_idempotent.
Qed.

(** X5.  The rewrite looks for [<img] in lower case only: a tag without
    it, such as one written [<IMG ...>], which the scanner does report, is
    returned as it is. *)
Theorem tag_without_lowercase_img_unchanged
  (options : Options.t) (imgTag path : jsstring) :
  includes imgTag (js "<img") = false ->
  optimizeHtmlImage options imgTag path = imgTag.
Proof.
  intros H. rewrite optimizeHtmlImage_steps.
  destruct (_ && _); [reflexivity|].
  now rewrite (lazyStep_absent options imgTag H), (styleStep_absent imgTag H).
Qed.

Lemma tag_without_lowercase_img_unchanged_witness :
  In (HtmlImage (js "<IMG SRC='a.png'>") (js "a.png") 0)
     (analyzeImages (js "<IMG SRC='a.png'>"))
  /\ optimizeHtmlImage Options.default (js "<IMG SRC='a.png'>") (js "a.png")
     = js "<IMG SRC='a.png'>".
Proof.
  split; [vm_compute; left; reflexivity|].
  apply tag_without_lowercase_img_unchanged. vm_compute. reflexivity.
Defined.

(** X6.  With [addLazyLoading] on, the rewrite of a tag that contains
    [<img] contains [loading=]; it also contains [style=] or [max-width],
    unless the tag carries [<picture>] or [srcset]. *)
Theorem optimizeHtmlImage_attributes
  (options : Options.t) (imgTag path : jsstring) :
  Options.addLazyLoading options = true ->
  includes imgTag (js "<img") = true ->
  includes (optimizeHtmlImage options imgTag path) (js "loading=") = true
  /\ (includes (optimizeHtmlImage options imgTag path) (js "style=")
      || includes (optimizeHtmlImage options imgTag path) (js "max-width")
      || (includes imgTag (js "<picture>") || includes imgTag (js "srcset")))
     = true.
Proof.
  intros On H. rewrite optimizeHtmlImage_steps.
  destruct (includes imgTag (js "loading=")) eqn:L; cbn [andb].
  - destruct (includes imgTag (js "<picture>") || includes imgTag (js "srcset"))
      eqn:W.
    + split; [exact L | apply orb_true_r].
    + split.
      * apply styleStep_keeps_loading. unfold lazyStep. now rewrite L.
      * rewrite styleStep_styled; [reflexivity|].
        now apply lazyStep_keeps_img.
  - split.
    + now apply styleStep_keeps_loading, lazyStep_loading.
    + rewrite styleStep_styled; [reflexivity|]. now apply lazyStep_keeps_img.
Qed.

Lemma optimizeHtmlImage_attributes_witness :
  includes (optimizeHtmlImage Options.default
              (js "<p><img src='a.png' width=3>") (js "a.png"))
           (js "loading=") = true.
Proof.
  apply (proj1 (@optimizeHtmlImage_attributes Options.default
                  (js "<p><img src='a.png' width=3>") (js "a.png")
                  eq_refl ltac:(vm_compute; reflexivity))).
Defined.

(** ** Replacing a final extension *)

Lemma hd_error_app (A : Type) (a b : list A) :
  hd_error (a ++ b)
  = match hd_error a with Some x => Some x | None => hd_error b end.
Proof. now destruct a. Qed.

Lemma run_group_lit_eol (n : nat) (e : jsstring) (x : MState) :
  option_map endIndex
    (hd_error (run true (RSeq (RGroup n (lit e)) (RSeq REol REmpty)) x))
  = if equalIgnoringCase (remaining x) e
    then Some (endIndex x + length (remaining x)) else None.
Proof.
  rewrite run_seq_group_lit, run_eol. cbn [remaining].
  rewrite <- matchesPrefix_all.
  destruct (matchesPrefix true (remaining x) e) eqn:M; [|reflexivity].
  destruct (isNil _) eqn:E; [|reflexivity]. cbn. f_equal.
  apply matchesPrefix_length in M. apply isNil_skipn in E. lia.
Qed.

(** A group of literal alternatives followed by the end of the input
    matches when what is left is one of the alternatives, and then all of
    it. *)
Lemma run_group_lits_eol (n : nat) :
  forall es e x,
    option_map endIndex
      (hd_error (run true (RSeq (RGroup n (alts (lit e) (map lit es)))
                                (RSeq REol REmpty)) x))
    = if existsb (equalIgnoringCase (remaining x)) (e :: es)
      then Some (endIndex x + length (remaining x)) else None.
Proof.
  induction es as [|a es IH]; intros e x; cbn [alts map existsb].
  - now rewrite run_group_lit_eol, orb_false_r.
  - rewrite run_seq_group_alt, hd_error_app.
    pose proof (run_group_lit_eol n e x) as B. specialize (IH a x).
    destruct (hd_error (run true (RSeq (RGroup n (lit e)) _) x)) as [y|];
      cbn [option_map] in B |- *.
    + destruct (equalIgnoringCase (remaining x) e); [exact B | discriminate].
    + destruct (equalIgnoringCase (remaining x) e); [discriminate|].
      exact IH.
Qed.

Lemma equalIgnoringCase_cons (c : N) (s e : jsstring) :
  equalIgnoringCase s (c :: e)
  = matchesPrefix true s [c] && equalIgnoringCase (skipn 1 s) e.
Proof.
  destruct s as [|d s]; cbn; [reflexivity|].
  now rewrite canonicalize_same, andb_true_r.
Qed.

Lemma existsb_equal_cons (c : N) (s : jsstring) (es : list jsstring) :
  existsb (equalIgnoringCase s) (map (cons c) es)
  = matchesPrefix true s [c] && existsb (equalIgnoringCase (skipn 1 s)) es.
Proof.
  induction es as [|e es IH]; cbn [map existsb]; [now rewrite andb_false_r|].
  rewrite IH, equalIgnoringCase_cons. now destruct (matchesPrefix true s [c]).
Qed.

(** A dot, a group of literal alternatives and the end of the input. *)
Lemma run_dot_lits_eol (n : nat) (e : jsstring) (es : list jsstring)
  (i : nat) (rest : jsstring) :
  option_map endIndex
    (hd_error (run true
                 (RSeq (RChar (ch "."))
                       (RSeq (RGroup n (alts (lit e) (map lit es)))
                             (RSeq REol REmpty)))
                 (mkState i rest [])))
  = if existsb (equalIgnoringCase rest) (map (cons (ch ".")) (e :: es))
    then Some (i + length rest) else None.
Proof.
  rewrite run_seq_char. unfold advanced. cbn [remaining endIndex captures].
  rewrite existsb_equal_cons.
  destruct (matchesPrefix true rest [ch "."]) eqn:M; [|reflexivity].
  rewrite run_group_lits_eol. cbn [remaining endIndex andb].
  destruct (existsb _ _); [|reflexivity].
  apply matchesPrefix_length in M. rewrite length_skipn. cbn in M.
  f_equal. lia.
Qed.

(** ** Replacement at a suffix *)

(** For an expression that matches, at any index, exactly when what is left
    satisfies [p], and then all of it, replacing the first match puts the
    replacement in place of the leftmost suffix that satisfies [p]. *)
Lemma searchFrom_suffix (re : RegExp) (p : jsstring -> bool) (r : jsstring) :
  (forall i rest,
      option_map endIndex
        (hd_error (run (ignoreCase re) (pattern re) (mkState i rest [])))
      = if p rest then Some (i + length rest) else None) ->
  forall rest i,
    match searchFrom re i rest with
    | None => rest
    | Some m =>
        firstn (m_index m - i) rest ++ r
        ++ skipn (m_index m - i + length (m_full m)) rest
    end
    = replaceAtSuffix p r rest.
Proof.
  intros R. induction rest as [|c rest IH]; intros i;
    rewrite searchFrom_unfold; specialize (R i).
  - specialize (R []). cbn [replaceAtSuffix].
    destruct (run _ _ _) as [|y l]; cbn [hd_error option_map] in R;
      destruct (p []); try discriminate; [reflexivity|].
    cbn [m_index m_full]. rewrite Nat.sub_diag.
    cbn [firstn app]. rewrite skipn_nil. apply app_nil_r.
  - specialize (R (c :: rest)). cbn [replaceAtSuffix].
    destruct (run _ _ _) as [|y l]; cbn [hd_error option_map] in R;
      destruct (p (c :: rest)); try discriminate.
    + specialize (IH (S i)).
      destruct (searchFrom re (S i) rest) as [m|] eqn:F; [|now f_equal].
      apply searchFrom_Some in F as (k & y & l & _ & _ & ->).
      cbn [m_index m_full] in IH |- *.
      replace (S i + k - i) with (S (S i + k - S i)) by lia.
      cbn [firstn skipn Nat.add app]. now f_equal.
    + injection R as R. cbn [m_index m_full]. rewrite R, Nat.sub_diag.
      cbn [firstn app Nat.add]. rewrite skipn_length_firstn.
      rewrite skipn_all2 by (cbn [length]; lia). apply app_nil_r.
Qed.

Lemma replaceRe_suffix (re : RegExp) (p : jsstring -> bool) (r s : jsstring) :
  (forall i rest,
      option_map endIndex
        (hd_error (run (ignoreCase re) (pattern re) (mkState i rest [])))
      = if p rest then Some (i + length rest) else None) ->
  replaceRe s re r = replaceAtSuffix p r s.
Proof.
  intros R. rewrite <- (searchFrom_suffix re p r R s 0).
  unfold replaceRe, exec. cbn [Nat.ltb Nat.leb skipn].
  destruct (searchFrom re 0 s); [|reflexivity].
  now rewrite Nat.sub_0_r.
Qed.

Lemma existsb_none (A : Type) (f : A -> bool) (l : list A) :
  (forall x, In x l -> f x = false) -> existsb f l = false.
Proof.
  intros H. destruct (existsb f l) eqn:E; [|reflexivity].
  apply existsb_exists in E as (x & Hin & Hx). now rewrite H in Hx.
Qed.

(** In the plain words: the first extension of the list the text ends
    with is cut off and the replacement appended.  The extensions must be
    non-empty, and a text that reads as one of them must not end with a
    shorter one. *)
Lemma replaceAtSuffix_find (exts : list jsstring) (r : jsstring) :
  (forall e, In e exts -> e <> []) ->
  (forall s e0 e, In e0 exts -> In e exts ->
                  equalIgnoringCase s e0 = true ->
                  endsWithIgnoringCase s e = true -> length s <= length e) ->
  forall s,
    replaceAtSuffix (fun t => existsb (equalIgnoringCase t) exts) r s
    = match find (endsWithIgnoringCase s) exts with
      | Some e => firstn (length s - length e) s ++ r
      | None => s
      end.
Proof.
  intros NE Short. induction s as [|c t IH].
  - cbn [replaceAtSuffix].
    assert (F : forall e, In e exts -> equalIgnoringCase [] e = false).
    { intros [|d e] H; [now destruct (NE [] H) | reflexivity]. }
    rewrite (existsb_none _ _ F).
    destruct (find _ _) as [e|] eqn:E; [|reflexivity].
    apply find_some in E as [Hin He]. unfold endsWithIgnoringCase in He.
    cbn [length Nat.sub skipn] in He. now rewrite F in He.
  - cbn [replaceAtSuffix].
    destruct (existsb (equalIgnoringCase (c :: t)) exts) eqn:X.
    + apply existsb_exists in X as (e0 & Hin0 & H0).
      destruct (find (endsWithIgnoringCase (c :: t)) exts) as [e|] eqn:F.
      * apply find_some in F as [Hin He].
        pose proof (Short _ _ _ Hin0 Hin H0 He) as L.
        now replace (length (c :: t) - length e) with 0 by lia.
      * apply (find_none _ _ F) in Hin0.
        now rewrite equal_endsWithIgnoringCase in Hin0.
    + rewrite IH.
      assert (X' : forall e, In e exts ->
                             equalIgnoringCase (c :: t) e = false).
      { intros e Hin. destruct (equalIgnoringCase (c :: t) e) eqn:E;
          [|reflexivity].
        assert (existsb (equalIgnoringCase (c :: t)) exts = true)
          by (apply existsb_exists; now exists e).
        congruence. }
      rewrite (@find_ext_in _ (endsWithIgnoringCase (c :: t))
                 (endsWithIgnoringCase t) exts).
      * destruct (find (endsWithIgnoringCase t) exts) as [e|] eqn:F;
          [|reflexivity].
        apply find_some in F as [_ He].
        apply endsWithIgnoringCase_length in He. cbn [length].
        now replace (S (length t) - length e)
          with (S (length t - length e)) by lia.
      * intros e Hin. rewrite endsWithIgnoringCase_cons.
        destruct (Nat.leb_spec (length e) (length t)) as [H|H];
          [reflexivity|].
        rewrite (X' e Hin). symmetry.
        destruct (endsWithIgnoringCase t e) eqn:E; [|reflexivity].
        apply endsWithIgnoringCase_length in E. lia.
Qed.

(** ** The WebP sibling *)

Lemma replace_webpExtension (src : jsstring) :
  replaceRe src webpExtensionRegex (js ".webp") = webpSibling src.
Proof.
  rewrite (@replaceRe_suffix webpExtensionRegex
             (fun t => existsb (equalIgnoringCase t) webpSources)).
  - apply replaceAtSuffix_find.
    + intros e [<-|[<-|[<-|[]]]]; discriminate.
    + intros s e0 e Hin0 Hin H0 He.
      pose proof (equalIgnoringCase_length _ _ H0) as L.
      destruct Hin0 as [<-|[<-|[<-|[]]]];
        try (destruct Hin as [<-|[<-|[<-|[]]]];
             cbn [length js map list_ascii_of_string] in *; lia).
      apply (@jpeg_ends_with_no_other s e H0); [|exact He].
      destruct Hin as [<-|[<-|[<-|[]]]]; cbn; auto.
  - intros i rest.
    exact (run_dot_lits_eol 1 (js "png") [js "jpg"; js "jpeg"] i rest).
Qed.

(** X7.  The rewrite of an asset image is the fixed block with the WebP
    sibling path as [srcset], the path itself as [src] and the optimized alt
    text: a final [.png], [.jpg] or [.jpeg] of the path, in any case, is
    replaced by [.webp], and a path with no such ending (a [.gif], say) is
    used for [srcset] as it is. *)
Theorem asset_rewrite_block
  (unicodeUpper : N -> jsstring) (options : Options.t) (alt path : jsstring) :
  isAssetImage path = true ->
  optimizeMarkdownImage unicodeUpper options alt path
  = js "<picture>" ++ [nl]
    ++ js "  <source " ++ attr (js "srcset") (webpSibling path)
    ++ js " " ++ attr (js "type") (js "image/webp") ++ js ">" ++ [nl]
    ++ js "  <img " ++ attr (js "src") path
    ++ js " " ++ attr (js "alt") (optimizeAltText unicodeUpper options alt)
    ++ js " " ++ attr (js "loading") (js "lazy")
    ++ js " " ++ attr (js "style") (js "max-width: 100%; height: auto;")
    ++ js ">" ++ [nl] ++ js "</picture>".
Proof.
  intros H. unfold optimizeMarkdownImage. rewrite H. cbn [negb].
  rewrite replace_webpExtension.
  generalize (webpSibling path) (optimizeAltText unicodeUpper options alt).
  intros webp optimizedAlt. unfold attr. cbn.
  rewrite <- !app_assoc. reflexivity.
Qed.

Lemma asset_rewrite_block_witness :
  includes (optimizeMarkdownImage plainUpper Options.default
              (js "Spinner") (js "./assets/spin.gif"))
           (js "<source " ++ attr (js "srcset") (js "./assets/spin.gif"))
  = true.
Proof.
  rewrite (@asset_rewrite_block plainUpper Options.default (js "Spinner")
             (js "./assets/spin.gif"));
    vm_compute; reflexivity.
Defined.

(** ** Scanning a reference that was written out *)

Lemma advanced_0 (x : MState) : advanced 0 x = x.
Proof. destruct x. unfold advanced. cbn. now rewrite Nat.add_0_r. Qed.

Lemma run_class_cons (ic negated : bool) (atoms : list ClassAtom)
  (x : MState) (d : N) (t : jsstring) :
  remaining x = d :: t ->
  run ic (RClass negated atoms) x
  = if inClass ic negated atoms d
    then [mkState (S (endIndex x)) t (captures x)] else [].
Proof. intros E. cbn [run]. now rewrite E. Qed.

Lemma run_class_nil (ic negated : bool) (atoms : list ClassAtom) (x : MState) :
  remaining x = [] -> run ic (RClass negated atoms) x = [].
Proof. intros E. cbn [run]. now rewrite E. Qed.

(** The first result of a greedy class iteration takes every character up
    to the first one outside the class. *)
Lemma star_class_first (ic negated : bool) (atoms : list ClassAtom) :
  forall w x rest fuel,
    remaining x = w ++ rest ->
    forallb (inClass ic negated atoms) w = true ->
    match rest with
    | [] => True
    | c :: _ => inClass ic negated atoms c = false
    end ->
    length (remaining x) < fuel ->
    exists l,
      star (run ic (RClass negated atoms)) fuel x = advanced (length w) x :: l.
Proof.
  induction w as [|d w IH]; intros x rest fuel E W R F;
    (destruct fuel as [|fuel]; [lia|]); cbn [star].
  - exists []. rewrite advanced_0. cbn in E.
    destruct rest as [|c rest].
    + now rewrite (run_class_nil _ _ _ _ E).
    + now rewrite (run_class_cons _ _ _ _ E), R.
  - cbn [forallb] in W. apply andb_true_iff in W as [Wd W].
    change ((d :: w) ++ rest) with (d :: (w ++ rest)) in E.
    rewrite (run_class_cons _ _ _ _ E), Wd. cbn [flat_map remaining].
    rewrite E. cbn [length].
    rewrite (proj2 (Nat.ltb_lt _ _) (Nat.lt_succ_diag_r _)).
    destruct (IH (mkState (S (endIndex x)) (w ++ rest) (captures x))
                 rest fuel eq_refl W R) as [l Hl].
    { rewrite E in F. cbn in F |- *. lia. }
    rewrite Hl. eexists. cbn [app]. f_equal.
    unfold advanced. cbn. rewrite E. cbn. f_equal. lia.
Qed.

Lemma hd_error_flat_map (A B : Type) (f : A -> list B) (a : A) (l : list A)
  (b : B) :
  hd_error (f a) = Some b -> hd_error (flat_map f (a :: l)) = Some b.
Proof. cbn. rewrite hd_error_app. now intros ->. Qed.

Lemma noneOf_class (c : N) (w : jsstring) :
  ~ In c w -> forallb (inClass false true [CaChar c]) w = true.
Proof.
  induction w as [|d w IH]; intros H; cbn; [reflexivity|].
  rewrite IH by (intros H'; apply H; now right).
  destruct (N.eqb_spec d c) as [->|_]; [|reflexivity].
  destruct H. now left.
Qed.

Lemma run_star_class_first (ic negated : bool) (atoms : list ClassAtom)
  (w rest : jsstring) (x : MState) :
  remaining x = w ++ rest ->
  forallb (inClass ic negated atoms) w = true ->
  match rest with
  | [] => True
  | c :: _ => inClass ic negated atoms c = false
  end ->
  exists l, run ic (RStar (RClass negated atoms)) x = advanced (length w) x :: l.
Proof.
  intros E W R.
  change (run ic (RStar (RClass negated atoms)) x)
    with (star (run ic (RClass negated atoms)) (S (length (remaining x))) x).
  apply (@star_class_first ic negated atoms w x rest); try assumption.
  apply Nat.lt_succ_diag_r.
Qed.

Lemma run_plus_class_first (ic negated : bool) (atoms : list ClassAtom)
  (d : N) (w rest : jsstring) (x : MState) :
  remaining x = d :: w ++ rest ->
  forallb (inClass ic negated atoms) (d :: w) = true ->
  match rest with
  | [] => True
  | c :: _ => inClass ic negated atoms c = false
  end ->
  exists l,
    run ic (RPlus (RClass negated atoms)) x = advanced (S (length w)) x :: l.
Proof.
  intros E W R. cbn [forallb] in W. apply andb_true_iff in W as [Wd W].
  change (run ic (RPlus (RClass negated atoms)) x)
    with (flat_map (fun y => star (run ic (RClass negated atoms))
                               (S (length (remaining y))) y)
                   (run ic (RClass negated atoms) x)).
  rewrite (run_class_cons _ _ _ _ E), Wd. cbn [flat_map remaining].
  destruct (@star_class_first ic negated atoms w
              (mkState (S (endIndex x)) (w ++ rest) (captures x)) rest
              (S (length (w ++ rest))) eq_refl W R (Nat.lt_succ_diag_r _))
    as [l ->].
  eexists. cbn [app]. f_equal. unfold advanced. cbn. rewrite E. cbn.
  f_equal. lia.
Qed.

(** The first result of a sequence, from the first result of its head. *)
Lemma hd_run_seq (ic : bool) (r k : Regex) (x y b : MState) (l : list MState) :
  run ic r x = y :: l ->
  hd_error (run ic k y) = Some b ->
  hd_error (run ic (RSeq r k) x) = Some b.
Proof. intros E H. cbn [run]. rewrite E. now apply hd_error_flat_map. Qed.

Lemma run_group_first (ic : bool) (n : nat) (r : Regex) (x y : MState)
  (l : list MState) :
  run ic r x = y :: l ->
  exists l',
    run ic (RGroup n r) x
    = mkState (endIndex y) (remaining y)
              ((n, firstn (endIndex y - endIndex x) (remaining x))
                 :: captures y)
      :: l'.
Proof. intros E. cbn [run]. rewrite E. cbn [map]. now eexists. Qed.

Lemma skipn_length_app_all (u l : jsstring) : skipn (length u) (u ++ l) = l.
Proof.
  rewrite <- (Nat.add_0_r (length u)). now rewrite skipn_length_app.
Qed.

(** The first match of [imageRegex] on a text that starts with a reference
    written out from an alt text without a closing bracket and a non-empty
    path without a closing parenthesis. *)
Lemma imageRegex_first (alt path post : jsstring) :
  ~ In (ch "]") alt -> ~ In (ch ")") path -> path <> [] ->
  hd_error (run false (pattern imageRegex)
              (mkState 0 ((js "![" ++ alt ++ js "](" ++ path ++ js ")") ++ post)
                       []))
  = Some (mkState (length (js "![" ++ alt ++ js "](" ++ path ++ js ")"))
                  post [(2, path); (1, alt)]).
Proof.
  intros Na Np NE.
  destruct path as [|p0 path]; [now destruct NE|].
  cbn [pattern imageRegex seqs].
  assert (Alt : forallb (inClass false true [CaChar (ch "]")]) alt = true)
    by now apply noneOf_class.
  assert (Path : forallb (inClass false true [CaChar (ch ")")]) (p0 :: path)
                 = true) by now apply noneOf_class.
  set (r5 := ch ")" :: post).
  set (r2 := ch "]" :: ch "(" :: p0 :: path ++ r5).
  assert (T : (js "![" ++ alt ++ js "](" ++ (p0 :: path) ++ js ")") ++ post
              = ch "!" :: ch "[" :: alt ++ r2).
  { subst r2 r5. cbn. rewrite <- !app_assoc. cbn.
    now rewrite <- !app_assoc. }
  rewrite T. clear T.
  (* the two opening characters *)
  rewrite !run_seq_char. unfold advanced. cbn -[r2 run].
  (* the alt group *)
  destruct (@run_star_class_first false true [CaChar (ch "]")] alt r2
              (mkState 2 (alt ++ r2) []) eq_refl Alt eq_refl) as [l1 H1].
  destruct (@run_group_first _ 1 _ _ _ _ H1) as [l1' G1].
  eapply hd_run_seq; [exact G1|]. clear H1 G1 l1 l1'.
  unfold advanced. cbn [endIndex remaining captures].
  rewrite skipn_length_app_all.
  replace (2 + length alt - 2) with (length alt) by lia.
  rewrite firstn_length_app.
  (* the two characters between the groups *)
  subst r2. rewrite !run_seq_char. unfold advanced. cbn -[r5 run].
  (* the path group *)
  match goal with
  | |- context [mkState ?i (p0 :: path ++ r5) ?c] =>
      remember i as i5 eqn:Ei;
      destruct (@run_plus_class_first false true [CaChar (ch ")")] p0 path r5
                  (mkState i5 (p0 :: path ++ r5) c) eq_refl Path eq_refl)
        as [l2 H2]
  end.
  destruct (@run_group_first _ 2 _ _ _ _ H2) as [l2' G2].
  eapply hd_run_seq; [exact G2|]. clear H2 G2 l2 l2'.
  unfold advanced. cbn [endIndex remaining captures].
  change (skipn (S (length path)) (p0 :: path ++ r5))
    with (skipn (length path) (path ++ r5)).
  rewrite skipn_length_app_all.
  replace (i5 + S (length path) - i5) with (length (p0 :: path))
    by (cbn; lia).
  change (p0 :: path ++ r5) with ((p0 :: path) ++ r5).
  rewrite firstn_length_app.
  (* the closing character *)
  subst r5. rewrite run_seq_char. unfold advanced. cbn.
  do 2 f_equal. subst i5. rewrite !length_app. cbn. rewrite length_app. cbn.
  lia.
Qed.

(** X8.  Scanning what was written out: for an alt text without a closing
    bracket and a non-empty path without a closing parenthesis, the first
    image the scanner reports in a document that starts with the reference
    [![alt](path)] is the markdown image with that alt text and path, at
    index 0, whatever follows. *)
Theorem scan_written_reference (alt path post : jsstring) :
  ~ In (ch "]") alt -> ~ In (ch ")") path -> path <> [] ->
  hd_error (analyzeImages
              ((js "![" ++ alt ++ js "](" ++ path ++ js ")") ++ post))
  = Some (MarkdownImage (js "![" ++ alt ++ js "](" ++ path ++ js ")")
                        alt path 0).
Proof.
  intros Na Np NE. pose proof (@imageRegex_first alt path post Na Np NE) as H.
  set (text := js "![" ++ alt ++ js "](" ++ path ++ js ")") in *.
  clearbody text. remember (length text) as n eqn:En.
  unfold analyzeImages. cbn [whileExec]. unfold exec.
  cbn [Nat.ltb Nat.leb skipn]. rewrite searchFrom_unfold.
  cbn [ignoreCase imageRegex] in *.
  destruct (run false _ _) as [|y l]; [discriminate|].
  injection H as ->. cbn [map app hd_error endIndex captures].
  unfold group. cbn [m_full m_captures m_index find fst Nat.eqb].
  rewrite Nat.sub_0_r, En, firstn_length_app. reflexivity.
Qed.

Lemma scan_written_reference_witness :
  hd_error (analyzeImages (js "![Company logo](img/logo.png) and more"))
  = Some (MarkdownImage (js "![Company logo](img/logo.png)")
                        (js "Company logo") (js "img/logo.png") 0).
Proof.
  apply (@scan_written_reference (js "Company logo") (js "img/logo.png")
           (js " and more")).
  - vm_compute. intuition discriminate.
  - vm_compute. intuition discriminate.
  - discriminate.
Defined.

(** ** The options the rewrite reads *)

Section OptionsRead.
Variable unicodeUpper : N -> jsstring.
Variables o1 o2 : Options.t.
Hypothesis same_lazy : Options.addLazyLoading o1 = Options.addLazyLoading o2.
Hypothesis same_alt : Options.optimizeAltText o1 = Options.optimizeAltText o2.

Lemma optimizeImage_options (image : Image) :
  optimizeImage unicodeUpper o1 image = optimizeImage unicodeUpper o2 image.
Proof.
  destruct image as [f alt path i|f path i]; cbn [optimizeImage].
  - unfold optimizeMarkdownImage, optimizeAltText. now rewrite same_alt.
  - unfold optimizeHtmlImage. now rewrite same_lazy.
Qed.

Lemma reassemble_options (images : list Image) :
  forall st,
    fold_left (reassemble unicodeUpper o1) images st
    = fold_left (reassemble unicodeUpper o2) images st.
Proof.
  induction images as [|image images IH]; intros st; cbn [fold_left];
    [reflexivity|].
  rewrite IH. f_equal. unfold reassemble. now rewrite optimizeImage_options.
Qed.
End OptionsRead.

(** X9.  The rewrite reads two options only: documents are rewritten alike
    under options that agree on [addLazyLoading] and [optimizeAltText].  So
    of the command-line flags only [--no-lazy] changes the rewritten text;
    [--no-webp] and [--no-backup] do not, and no flag turns the alt-text
    optimization off. *)
Theorem rewrite_reads_two_options (unicodeUpper : N -> jsstring) :
  (forall o1 o2 stats0 content,
      Options.addLazyLoading o1 = Options.addLazyLoading o2 ->
      Options.optimizeAltText o1 = Options.optimizeAltText o2 ->
      optimizeImageReferences unicodeUpper o1 stats0 content
      = optimizeImageReferences unicodeUpper o2 stats0 content)
  /\ (forall args stats0 content,
         optimizeImageReferences unicodeUpper (cliOptions args) stats0 content
         = optimizeImageReferences unicodeUpper
             (Options.mk (negb (existsb (strEq (js "--no-lazy")) args))
                         true true true true)
             stats0 content).
Proof.
  assert (G : forall o1 o2 stats0 content,
             Options.addLazyLoading o1 = Options.addLazyLoading o2 ->
             Options.optimizeAltText o1 = Options.optimizeAltText o2 ->
             optimizeImageReferences unicodeUpper o1 stats0 content
             = optimizeImageReferences unicodeUpper o2 stats0 content).
  { intros o1 o2 stats0 content L A. unfold optimizeImageReferences.
    now rewrite (reassemble_options unicodeUpper o1 o2 L A). }
  split; [exact G|]. intros args stats0 content. apply G.
  - cbn. now destruct (existsb _ args).
  - reflexivity.
Qed.

Lemma rewrite_reads_two_options_witness :
  optimizeImageReferences plainUpper
    (cliOptions [js "--no-webp"; js "--no-backup"]) Stats.initial
    (js "![Logo](./assets/logo.png)")
  = optimizeImageReferences plainUpper Options.default Stats.initial
      (js "![Logo](./assets/logo.png)").
Proof.
  apply (proj1 (rewrite_reads_two_options plainUpper));
    vm_compute; reflexivity.
Defined.

(** ** Processing a file *)

Section Counters.
Variable unicodeUpper : N -> jsstring.
Variable options : Options.t.

Lemma fold_reassemble_other_counters (images : list Image) :
  forall st,
    Stats.filesProcessed
      (stats (fold_left (reassemble unicodeUpper options) images st))
    = Stats.filesProcessed (stats st)
    /\ Stats.backupsCreated
         (stats (fold_left (reassemble unicodeUpper options) images st))
       = Stats.backupsCreated (stats st).
Proof.
  induction images as [|image images IH]; intros st; cbn [fold_left];
    [now split|].
  destruct (IH (reassemble unicodeUpper options st image)) as [-> ->].
  unfold reassemble. now destruct (negb _).
Qed.

Lemma fold_reassemble_content (images : list Image) :
  forall st1 st2,
    optimizedContent st1 = optimizedContent st2 ->
    offset st1 = offset st2 ->
    optimizedContent (fold_left (reassemble unicodeUpper options) images st1)
    = optimizedContent (fold_left (reassemble unicodeUpper options) images st2).
Proof.
  induction images as [|image images IH]; intros st1 st2 C O; cbn [fold_left];
    [exact C|].
  apply IH; unfold reassemble; destruct (negb _); cbn; congruence.
Qed.

(** What [optimizeImageReferences] does to the counters, and that its text
    does not depend on them. *)
Lemma optimizeImageReferences_counters (stats0 : Stats.t) (content : jsstring) :
  let after := snd (optimizeImageReferences unicodeUpper options stats0 content) in
  Stats.filesProcessed after = Stats.filesProcessed stats0
  /\ Stats.backupsCreated after = Stats.backupsCreated stats0
  /\ Stats.imagesOptimized after
     = Stats.imagesOptimized stats0
       + length (filter (changed unicodeUpper options) (analyzeImages content)).
Proof.
  unfold optimizeImageReferences. cbn [snd].
  destruct (fold_reassemble_other_counters (analyzeImages content)
              (mkReassembly content 0 stats0)) as [-> ->].
  now rewrite fold_reassemble_count.
Qed.

Lemma optimizeImageReferences_content (s1 s2 : Stats.t) (content : jsstring) :
  fst (optimizeImageReferences unicodeUpper options s1 content)
  = fst (optimizeImageReferences unicodeUpper options s2 content).
Proof.
  unfold optimizeImageReferences. cbn [fst].
  now apply fold_reassemble_content.
Qed.

Variable rt : Runtime.

Lemma createBackup_counters (filePath : jsstring) (w : World rt)
  (stats0 : Stats.t) :
  let '(_, stats1, e) := createBackup rt options filePath w stats0 in
  Stats.filesProcessed stats1 = Stats.filesProcessed stats0
  /\ Stats.imagesOptimized stats1 = Stats.imagesOptimized stats0
  /\ Stats.backupsCreated stats0 <= Stats.backupsCreated stats1
     <= S (Stats.backupsCreated stats0)
  /\ (e = None ->
      Stats.backupsCreated stats1
      = Stats.backupsCreated stats0
        + (if Options.backupFiles options then 1 else 0)).
Proof.
  unfold createBackup.
  destruct (Options.backupFiles options); cbn [negb].
  - destruct (ensureBackupDir rt w) as [w1 [m|]];
      [cbn; repeat split; try lia; discriminate|].
    destruct (copyFileSync rt w1 filePath _) as [w2 [m|]]; cbn;
      repeat split; try lia; discriminate.
  - cbn. repeat split; lia.
Qed.
End Counters.

(** X10.  A file that cannot be read, or in which the scanner finds no
    image, is left alone: the world and the counters are as before (the
    file is not copied, not written and not counted as processed), and two
    lines are printed. *)
Theorem processFile_leaves_alone
  (rt : Runtime) (unicodeUpper : N -> jsstring) (options : Options.t)
  (filePath : jsstring) (s : Session rt) :
  (forall content,
      readFileSync rt (world s) filePath = Returns content ->
      analyzeImages content = []) ->
  let s' := processFile unicodeUpper options filePath s in
  world s' = world s /\ counters s' = counters s
  /\ exists line, console s' = console s ++ [Processing filePath; line].
Proof.
  intros H. unfold processFile. cbn [print world counters console].
  destruct (readFileSync rt (world s) filePath) as [content|message].
  - rewrite (H content eq_refl). cbn. repeat split.
    exists NoImagesFound. now rewrite <- app_assoc.
  - cbn. repeat split.
    exists (ErrorProcessing filePath message). now rewrite <- app_assoc.
Qed.

Lemma processFile_leaves_alone_witness :
  let s := mkSession memoryRuntime
             (mkMemory [(js "notes.md", js "No picture, just [a link](x).")] [])
             (Stats.mk 3 4 3) [] in
  world (processFile plainUpper Options.default (js "notes.md") s) = world s
  /\ counters (processFile plainUpper Options.default (js "missing.md") s)
     = counters s.
Proof.
  intros s. split.
  - apply (@processFile_leaves_alone memoryRuntime plainUpper Options.default
             (js "notes.md") s).
    intros content H. injection H as <-. vm_compute. reflexivity.
  - apply (@processFile_leaves_alone memoryRuntime plainUpper Options.default
             (js "missing.md") s).
    intros content H. discriminate H.
Defined.

(** X11.  What [processFile] does to the counters, whatever the runtime
    does: none decreases; [filesProcessed] and [backupsCreated] grow by at
    most one; and when the file is counted as processed it was read, the
    scanner found an image in it, [imagesOptimized] grew by the number of
    images whose rewrite differs from their text, and [backupsCreated] grew
    by one exactly if [backupFiles] is on. *)
Theorem processFile_counters
  (rt : Runtime) (unicodeUpper : N -> jsstring) (options : Options.t)
  (filePath : jsstring) (s : Session rt) :
  let before := counters s in
  let after := counters (processFile unicodeUpper options filePath s) in
  Stats.filesProcessed before <= Stats.filesProcessed after
    <= S (Stats.filesProcessed before)
  /\ Stats.backupsCreated before <= Stats.backupsCreated after
     <= S (Stats.backupsCreated before)
  /\ Stats.imagesOptimized before <= Stats.imagesOptimized after
  /\ (Stats.filesProcessed after = S (Stats.filesProcessed before) ->
      exists content,
        readFileSync rt (world s) filePath = Returns content
        /\ analyzeImages content <> []
        /\ Stats.imagesOptimized after
           = Stats.imagesOptimized before
             + length (filter (changed unicodeUpper options)
                              (analyzeImages content))
        /\ Stats.backupsCreated after
           = Stats.backupsCreated before
             + (if Options.backupFiles options then 1 else 0)).
Proof.
  cbn zeta. unfold processFile. cbn [print world counters console].
  destruct (readFileSync rt (world s) filePath) as [content|message];
    [|cbn [print counters]; (split; [lia|split; [lia|split; [lia|intros E; exfalso; lia]]])].
  destruct (length (analyzeImages content) =? 0) eqn:Z;
    [cbn [print counters]; (split; [lia|split; [lia|split; [lia|intros E; exfalso; lia]]])|].
  assert (NE : analyzeImages content <> [])
    by (intros E; rewrite E in Z; discriminate Z).
  pose proof (createBackup_counters options rt filePath (world s) (counters s))
    as B.
  destruct (createBackup rt options filePath (world s) (counters s))
    as [[w1 stats1] e1].
  destruct B as (B1 & B2 & B3 & B4).
  destruct e1 as [message|]; [cbn [print counters]; (split; [lia|split; [lia|split; [lia|intros E; exfalso; lia]]])|].
  specialize (B4 eq_refl).
  pose proof (optimizeImageReferences_counters unicodeUpper options stats1
                content) as (O1 & O2 & O3).
  destruct (optimizeImageReferences unicodeUpper options stats1 content)
    as [optimizedContent stats2]. cbn [snd] in O1, O2, O3.
  assert (Counted :
            exists content0 : jsstring,
              Returns content = Returns content0
              /\ analyzeImages content0 <> []
              /\ Stats.imagesOptimized stats2
                 = Stats.imagesOptimized (counters s)
                   + length (filter (changed unicodeUpper options)
                                    (analyzeImages content0))
              /\ Stats.backupsCreated stats2
                 = Stats.backupsCreated (counters s)
                   + (if Options.backupFiles options then 1 else 0)).
  { exists content. repeat split; try assumption; lia. }
  destruct (negb (strEq optimizedContent content)).
  - destruct (writeFileSync rt w1 filePath optimizedContent) as [w2 [m|]];
      cbn [print counters countFile Stats.filesProcessed Stats.imagesOptimized
             Stats.backupsCreated];
      (split; [lia|split; [lia|split; [lia|]]]);
      solve [intros _; exact Counted | intros E; exfalso; lia].
  - cbn [print counters countFile Stats.filesProcessed Stats.imagesOptimized
           Stats.backupsCreated];
      (split; [lia|split; [lia|split; [lia|intros _; exact Counted]]]).
Qed.

Lemma processFile_counters_witness :
  let s := mkSession memoryRuntime
             (mkMemory [(js "a.md", js "![A](./assets/a.png) ![B](b.png)")] [])
             (Stats.mk 3 4 3) [] in
  exists content,
    readFileSync memoryRuntime (world s) (js "a.md") = Returns content
    /\ analyzeImages content <> []
    /\ Stats.imagesOptimized
         (counters (processFile plainUpper Options.default (js "a.md") s))
       = 4 + length (filter (changed plainUpper Options.default)
                            (analyzeImages content))
    /\ Stats.backupsCreated
         (counters (processFile plainUpper Options.default (js "a.md") s))
       = 3 + 1.
Proof.
  intros s.
  destruct (@processFile_counters memoryRuntime plainUpper Options.default
              (js "a.md") s) as (_ & _ & _ & H).
  apply H. vm_compute. reflexivity.
Defined.

Lemma strEq_neq (a b : jsstring) : a <> b -> strEq a b = false.
Proof. apply strEq_false. Qed.

Lemma memoryRuntime_laws : FileLaws memoryRuntime (fun _ => True) eq.
Proof.
  split; cbn.
  - intros p q E. now symmetry.
  - intros w p c w' _ _ [= <-]. cbn. now rewrite strEq_refl.
  - intros w p c w' q c0 _ H [= <-]. cbn.
    now rewrite (strEq_neq (fun E => H (eq_sym E))).
  - intros w a b w' c0 _ _ _.
    destruct (fileAt a (files w)) as [c|]; [|discriminate].
    intros [= <-] [= <-]. cbn. now rewrite strEq_refl.
  - intros w a b w' q c0 _ H.
    destruct (fileAt a (files w)) as [c|]; [|discriminate].
    intros [= <-]. cbn.
    now rewrite (strEq_neq (fun E => H (eq_sym E))).
  - intros w d w' q c0 _ [= <-]. cbn. trivial.
Qed.

Section Contents.
Variable rt : Runtime.
Variable plain : jsstring -> Prop.
Variable sameFile : jsstring -> jsstring -> Prop.
Hypothesis laws : FileLaws rt plain sameFile.
Variable options : Options.t.

Lemma ensureBackupDir_reads (w w1 : World rt) (q c : jsstring) :
  ensureBackupDir rt w = (w1, None) ->
  plain q ->
  readFileSync rt w q = Returns c -> readFileSync rt w1 q = Returns c.
Proof.
  unfold ensureBackupDir. destruct (negb _).
  - intros E P R. exact (@read_after_mkdir rt plain sameFile laws _ _ _ _ _ P E R).
  - now intros [= <-].
Qed.

(** After a backup that did not throw, the backup path reads as the file
    did, and what could be read from the other plain files is as before. *)
Lemma createBackup_reads (filePath : jsstring) (w w' : World rt)
  (stats0 stats1 : Stats.t) :
  createBackup rt options filePath w stats0 = (w', stats1, None) ->
  let backup := backupPath rt (fst (ensureBackupDir rt w)) filePath in
  (forall content,
      Options.backupFiles options = true ->
      plain filePath -> plain backup -> ~ sameFile filePath backup ->
      readFileSync rt w filePath = Returns content ->
      readFileSync rt w' backup = Returns content)
  /\ (forall q c,
         plain q ->
         (Options.backupFiles options = true -> ~ sameFile q backup) ->
         readFileSync rt w q = Returns c ->
         readFileSync rt w' q = Returns c).
Proof.
  cbn zeta. unfold createBackup.
  destruct (Options.backupFiles options); cbn [negb].
  - pose proof (@ensureBackupDir_reads w) as D.
    destruct (ensureBackupDir rt w) as [w1 [m|]]; [discriminate|].
    specialize (D w1). cbn [fst].
    destruct (copyFileSync rt w1 filePath (backupPath rt w1 filePath))
      as [w2 [m|]] eqn:C; [discriminate|].
    intros [= <- _]. split.
    + intros content _ Pf Pb N R.
      exact (@read_copied rt plain sameFile laws _ _ _ _ _ Pf Pb N C
               (D _ _ eq_refl Pf R)).
    + intros q c Pq N R.
      exact (@read_beside_copied rt plain sameFile laws _ _ _ _ _ _ Pq
               (N eq_refl) C (D _ _ eq_refl Pq R)).
  - intros [= <- _]. split; [discriminate|]. intros q c _ _ R. exact R.
Qed.
End Contents.

(** X12.  On a file system that keeps plain files as [FileLaws] says,
    when [processFile] counts a plain file as processed and the rewritten
    text is well-formed: the file then holds the text
    [optimizeImageReferences] returns for what it held; with [backupFiles]
    on, the backup, when it is a plain file other than the file itself,
    holds what the file held; and what could be read from any other plain
    file reads the same. *)
Theorem processFile_contents
  (rt : Runtime) (plain : jsstring -> Prop)
  (sameFile : jsstring -> jsstring -> Prop)
  (laws : FileLaws rt plain sameFile) (unicodeUpper : N -> jsstring)
  (options : Options.t) (filePath : jsstring) (s : Session rt)
  (content : jsstring) :
  let s' := processFile unicodeUpper options filePath s in
  let backup :=
    backupPath rt (fst (ensureBackupDir rt (world s))) filePath in
  let optimized :=
    fst (optimizeImageReferences unicodeUpper options (counters s) content) in
  readFileSync rt (world s) filePath = Returns content ->
  Stats.filesProcessed (counters s') = S (Stats.filesProcessed (counters s)) ->
  plain filePath ->
  wellFormed optimized = true ->
  (Options.backupFiles options = true ->
   plain backup /\ ~ sameFile backup filePath) ->
  readFileSync rt (world s') filePath = Returns optimized
  /\ (Options.backupFiles options = true ->
      readFileSync rt (world s') backup = Returns content)
  /\ (forall q c,
         plain q ->
         ~ sameFile q filePath ->
         (Options.backupFiles options = true -> ~ sameFile q backup) ->
         readFileSync rt (world s) q = Returns c ->
         readFileSync rt (world s') q = Returns c).
Proof.
  cbn zeta. intros R. unfold processFile. cbn [print world counters console].
  rewrite R.
  destruct (length (analyzeImages content) =? 0);
    [cbn [print counters]; intros E; exfalso; lia|].
  pose proof (createBackup_counters options rt filePath (world s) (counters s))
    as B.
  pose proof (@createBackup_reads rt plain sameFile laws options filePath
                (world s)) as Rd.
  destruct (createBackup rt options filePath (world s) (counters s))
    as [[w1 stats1] e1] eqn:CB.
  destruct B as (B1 & _).
  destruct e1 as [message|]; [cbn [print counters]; intros E; exfalso; lia|].
  destruct (Rd w1 (counters s) stats1 CB) as [Rb Ro]. clear Rd.
  cbn zeta in Rb.
  pose proof (optimizeImageReferences_counters unicodeUpper options stats1
                content) as (O1 & _).
  rewrite (optimizeImageReferences_content unicodeUpper options (counters s)
             stats1 content).
  destruct (optimizeImageReferences unicodeUpper options stats1 content)
    as [optimizedContent stats2]. cbn [snd fst] in O1 |- *.
  assert (Apart : Options.backupFiles options = true ->
                  (plain
                     (backupPath rt (fst (ensureBackupDir rt (world s)))
                                 filePath)
                   /\ ~ sameFile
                        (backupPath rt (fst (ensureBackupDir rt (world s)))
                                    filePath) filePath) ->
                  ~ sameFile filePath
                      (backupPath rt (fst (ensureBackupDir rt (world s)))
                                  filePath)).
  { intros _ [_ N] E. exact (N (@sameFile_sym rt plain sameFile laws _ _ E)). }
  destruct (strEq optimizedContent content) eqn:Q; cbn [negb].
  - apply strEq_spec in Q. subst optimizedContent.
    cbn [world counters]. intros _ Pf _ NB. split; [|split].
    + apply Ro; [exact Pf| |exact R]. intros Hb. exact (Apart Hb (NB Hb)).
    + intros Hb. destruct (NB Hb) as [Pb N].
      exact (Rb content Hb Pf Pb (Apart Hb (NB Hb)) R).
    + intros q c Pq _ Hq Rq. exact (Ro q c Pq Hq Rq).
  - destruct (writeFileSync rt w1 filePath optimizedContent) as [w2 [m|]] eqn:W;
      [cbn [print counters]; intros E; exfalso; lia|].
    cbn [world counters]. intros _ Pf WF NB. split; [|split].
    + exact (@read_written rt plain sameFile laws _ _ _ _ Pf WF W).
    + intros Hb. destruct (NB Hb) as [Pb N].
      exact (@read_beside_written rt plain sameFile laws _ _ _ _ _ _ Pb N W
               (Rb content Hb Pf Pb (Apart Hb (NB Hb)) R)).
    + intros q c Pq Nq Hq Rq.
      exact (@read_beside_written rt plain sameFile laws _ _ _ _ _ _ Pq Nq W
               (Ro q c Pq Hq Rq)).
Qed.

Lemma processFile_contents_witness :
  let s := mkSession memoryRuntime
             (mkMemory [(js "a.md", js "![A](./assets/a.png) ![B](b.png)")] [])
             (Stats.mk 3 4 3) [] in
  let s' := processFile plainUpper Options.default (js "a.md") s in
  readFileSync memoryRuntime (world s') (js "a.md")
  = Returns (fst (optimizeImageReferences plainUpper Options.default
                    (counters s) (js "![A](./assets/a.png) ![B](b.png)")))
  /\ readFileSync memoryRuntime (world s')
       (js "markdown-backup/a.md.2024-05-06T07-08-09.backup")
     = Returns (js "![A](./assets/a.png) ![B](b.png)").
Proof.
  intros s s'.
  destruct (@processFile_contents memoryRuntime (fun _ => True) eq
              memoryRuntime_laws plainUpper
              Options.default (js "a.md") s
              (js "![A](./assets/a.png) ![B](b.png)"))
    as (H1 & H2 & _).
  - vm_compute. reflexivity.
  - vm_compute. reflexivity.
  - exact I.
  - vm_compute. reflexivity.
  - intros _. split; [exact I|]. vm_compute. discriminate.
  - split; [exact H1|].
    assert (E : backupPath memoryRuntime
                  (fst (ensureBackupDir memoryRuntime (world s))) (js "a.md")
                = js "markdown-backup/a.md.2024-05-06T07-08-09.backup")
      by (vm_compute; reflexivity).
    rewrite <- E. apply H2. reflexivity.
Defined.

Lemma run_firstIs (ic : bool) (c : N) (r : Regex) :
  firstIs c r = true ->
  forall x,
    match remaining x with
    | d :: _ => canonicalize ic d <> canonicalize ic c
    | [] => True
    end ->
    run ic r x = [].
Proof.
  induction r; cbn [firstIs]; try discriminate; intros F x H.
  - apply N.eqb_eq in F. subst c0. cbn [run].
    destruct (remaining x) as [|d t]; [reflexivity|].
    now apply N.eqb_neq in H; rewrite H.
  - cbn [run]. now rewrite (IHr1 F x H).
  - cbn [run]. now rewrite (IHr F x H).
Qed.

Lemma searchFrom_firstIs (re : RegExp) (c : N) :
  firstIs c (pattern re) = true ->
  forall rest i,
    (forall d, In d rest ->
               canonicalize (ignoreCase re) d <> canonicalize (ignoreCase re) c) ->
    searchFrom re i rest = None.
Proof.
  intros F rest. induction rest as [|d t IH]; intros i H; cbn [searchFrom].
  - now rewrite (run_firstIs (ignoreCase re) c (pattern re) F).
  - rewrite (run_firstIs (ignoreCase re) c (pattern re) F);
      [|cbn; apply H; now left].
    apply IH. intros e He. apply H. now right.
Qed.

Lemma whileExec_firstIs (re : RegExp) (c : N) (fuel : nat) (input : jsstring) :
  firstIs c (pattern re) = true ->
  (forall d, In d input ->
             canonicalize (ignoreCase re) d <> canonicalize (ignoreCase re) c) ->
  whileExec fuel re input 0 = [].
Proof.
  intros F H. destruct fuel as [|fuel]; [reflexivity|].
  cbn [whileExec]. unfold exec. cbn [Nat.ltb Nat.leb skipn].
  now rewrite (searchFrom_firstIs re c F).
Qed.

(** No letter is folded onto a character that is not a letter. *)
Lemma canonicalize_not_letter (ic : bool) (c d : N) :
  (c < 65 \/ 90 < c)%N -> (c < 97 \/ 122 < c)%N ->
  d <> c -> canonicalize ic d <> canonicalize ic c.
Proof.
  intros U L H. unfold canonicalize.
  destruct ic; cbn [andb]; [|exact H].
  destruct (N.leb_spec 97 d), (N.leb_spec d 122), (N.leb_spec 97 c),
    (N.leb_spec c 122); cbn [andb]; lia.
Qed.

(** X13.  The scanner finds markdown images only in text that has an
    exclamation mark and HTML images only in text that has a [<]; a text
    with neither has no image, and [optimizeImageReferences] returns it and
    the counters as they are. *)
Theorem no_marker_no_image
  (unicodeUpper : N -> jsstring) (options : Options.t) (stats0 : Stats.t)
  (content : jsstring) :
  (~ In (ch "!") content ->
   filter isMarkdown (analyzeImages content) = [])
  /\ (~ In (ch "<") content ->
      filter (fun image => negb (isMarkdown image)) (analyzeImages content)
      = [])
  /\ (~ In (ch "!") content -> ~ In (ch "<") content ->
      analyzeImages content = []
      /\ optimizeImageReferences unicodeUpper options stats0 content
         = (content, stats0)).
Proof.
  assert (M : ~ In (ch "!") content ->
              whileExec (S (length content)) imageRegex content 0 = []).
  { intros H. apply whileExec_firstIs with (c := ch "!"); [reflexivity|].
    intros d Hd. apply canonicalize_not_letter; [cbn; lia..|].
    intros ->. exact (H Hd). }
  assert (T : ~ In (ch "<") content ->
              whileExec (S (length content)) htmlImageRegex content 0 = []).
  { intros H. apply whileExec_firstIs with (c := ch "<"); [reflexivity|].
    intros d Hd. apply canonicalize_not_letter; [cbn; lia..|].
    intros ->. exact (H Hd). }
  split; [|split].
  - intros H. unfold analyzeImages. rewrite (M H). cbn [map app].
    generalize (whileExec (S (length content)) htmlImageRegex content 0).
    clear. intros l. induction l; [reflexivity|exact IHl].
  - intros H. unfold analyzeImages. rewrite (T H). cbn [map]. rewrite app_nil_r.
    generalize (whileExec (S (length content)) imageRegex content 0).
    clear. intros l. induction l; [reflexivity|exact IHl].
  - intros H1 H2.
    assert (E : analyzeImages content = [])
      by (unfold analyzeImages; now rewrite (M H1), (T H2)).
    split; [exact E|]. unfold optimizeImageReferences. now rewrite E.
Qed.

Lemma no_marker_no_image_witness :
  analyzeImages (js "# Title [link](a.png) no picture") = []
  /\ optimizeImageReferences plainUpper Options.default (Stats.mk 3 4 3)
       (js "# Title [link](a.png) no picture")
     = (js "# Title [link](a.png) no picture", Stats.mk 3 4 3).
Proof.
  apply (no_marker_no_image plainUpper Options.default (Stats.mk 3 4 3)
           (js "# Title [link](a.png) no picture")).
  - vm_compute. intuition discriminate.
  - vm_compute. intuition discriminate.
Defined.

Lemma slice_first (s : jsstring) (k : nat) :
  slice s 0 (Some (Z.of_nat k)) = firstn k s.
Proof.
  unfold slice, relIndex.
  destruct (Z.ltb_spec (Z.of_nat k) 0) as [L|L]; [lia|]. cbn [Z.ltb Z.compare].
  rewrite (Z.min_l 0) by lia. rewrite Z.sub_0_r. cbn [Z.to_nat skipn].
  destruct (Nat.le_gt_cases k (length s)) as [K|K].
  - now rewrite Z.min_l, Nat2Z.id by lia.
  - rewrite Z.min_r, Nat2Z.id by lia.
    now rewrite firstn_all, firstn_all2 by lia.
Qed.

Lemma hyphenate_no_colon (s : jsstring) :
  ~ In (ch ":") s -> hyphenate s = s.
Proof.
  induction s as [|d t IH]; intros H; [reflexivity|]. cbn [hyphenate map].
  destruct (N.eqb_spec d (ch ":")) as [->|_]; [exfalso; apply H; now left|].
  f_equal. apply IH. intros I. apply H. now right.
Qed.

(** The first colon from [i] on, if there is one. *)
Lemma searchFrom_colon (s : jsstring) :
  forall i,
    (~ In (ch ":") s /\ searchFrom colonRegex i s = None)
    \/ exists a b,
        s = a ++ ch ":" :: b /\ ~ In (ch ":") a
        /\ searchFrom colonRegex i s
           = Some (mkMatch (i + length a) [ch ":"] [] (S (i + length a))).
Proof.
  induction s as [|d t IH]; intros i.
  - left. split; [intros []|reflexivity].
  - rewrite searchFrom_unfold.
    change (run (ignoreCase colonRegex) (pattern colonRegex)
              (mkState i (d :: t) []))
      with (if (d =? ch ":")%N then [mkState (S i) t []] else []).
    destruct (N.eqb_spec d (ch ":")) as [->|N].
    + right. exists [], t. split; [reflexivity|]. split; [intros []|].
      cbn [endIndex captures length]. rewrite Nat.add_0_r.
      replace (S i - i) with 1 by lia. reflexivity.
    + destruct (IH (S i)) as [[H E]|(a & b & -> & H & E)].
      * left. split; [|exact E]. intros [I|I]; [now apply N|now apply H].
      * right. exists (d :: a), b. split; [reflexivity|].
        split; [intros [I|I]; [now apply N|now apply H]|].
        rewrite E. cbn [length]. now rewrite Nat.add_succ_r.
Qed.

Lemma replaceAll_colon (fuel : nat) :
  forall s pre,
    length s < fuel ->
    substituted (js "-") s (length pre)
                (whileExec fuel colonRegex (pre ++ s) (length pre))
    = hyphenate s.
Proof.
  induction fuel as [|fuel IH]; intros s pre L; [lia|].
  cbn [whileExec]. unfold exec.
  destruct (Nat.ltb_spec (length (pre ++ s)) (length pre)) as [K|_];
    [rewrite length_app in K; lia|].
  rewrite skipn_length_app_all.
  destruct (searchFrom_colon s (length pre))
    as [[H ->]|(a & b & -> & H & ->)].
  - cbn [substituted]. now rewrite (@hyphenate_no_colon s H).
  - cbn [substituted m_index m_full m_lastIndex length].
    replace (length pre + length a - length pre) with (length a) by lia.
    rewrite firstn_length_app.
    replace (length a + 1) with (length (a ++ [ch ":"]))
      by (rewrite length_app; reflexivity).
    replace (a ++ ch ":" :: b) with ((a ++ [ch ":"]) ++ b)
      by (now rewrite <- app_assoc).
    rewrite skipn_length_app_all.
    replace (length pre + length a + 1) with (length (pre ++ a ++ [ch ":"]))
      by (rewrite !length_app; cbn [length]; lia).
    replace (S (length pre + length a)) with (length (pre ++ a ++ [ch ":"]))
      by (rewrite !length_app; cbn [length]; lia).
    replace (pre ++ (a ++ [ch ":"]) ++ b) with ((pre ++ a ++ [ch ":"]) ++ b)
      by (now rewrite <- !app_assoc).
    rewrite IH
      by (rewrite !length_app in L; cbn [length] in L; lia).
    unfold hyphenate. rewrite !map_app. fold (hyphenate a).
    rewrite (@hyphenate_no_colon a H). cbn [map].
    rewrite N.eqb_refl. now rewrite <- app_assoc.
Qed.

Lemma replaceAllRe_colon (s : jsstring) :
  replaceAllRe s colonRegex (js "-") = hyphenate s.
Proof.
  unfold replaceAllRe. apply (replaceAll_colon (fuel := S (length s)) s []).
  lia.
Qed.

(** The name of the backup, the clock being read in [w]. *)
Lemma backupPath_name (rt : Runtime) (w : World rt) (filePath : jsstring) :
  backupPath rt w filePath
  = join rt (js "./markdown-backup")
         (basename rt filePath ++ js "."
          ++ hyphenate (firstn 19 (toISOString rt w)) ++ js ".backup").
Proof.
  unfold backupPath. cbn zeta. rewrite replaceAllRe_colon.
  change (Some 19%Z) with (Some (Z.of_nat 19)).
  now rewrite (slice_first (toISOString rt w) 19).
Qed.

(** X14.  With [backupFiles] on, once [./markdown-backup] is there (or
    was made without an error), [createBackup] makes one more call, which
    copies the file to [path.join('./markdown-backup', name)], [name] being
    the file's base name, a dot, the first 19 code units of the ISO time,
    read after the directory was seen to, with every colon turned into a
    hyphen, and [.backup]; [backupsCreated] grows by one if the copy did
    not throw, and otherwise the copy's error is thrown and the counters
    stay.  With [backupFiles] off nothing is called. *)
Theorem backup_name
  (rt : Runtime) (options : Options.t) (filePath : jsstring)
  (w : World rt) (stats0 : Stats.t) :
  (Options.backupFiles options = true ->
   forall w1,
     (existsSync rt w (js "./markdown-backup") = true /\ w1 = w)
     \/ (existsSync rt w (js "./markdown-backup") = false
         /\ mkdirSync rt w (js "./markdown-backup") = (w1, None)) ->
     createBackup rt options filePath w stats0
     = match copyFileSync rt w1 filePath
               (join rt (js "./markdown-backup")
                     (basename rt filePath ++ js "."
                      ++ hyphenate (firstn 19 (toISOString rt w1))
                      ++ js ".backup"))
       with
       | (w2, None) =>
           (w2,
            Stats.mk (Stats.filesProcessed stats0)
                     (Stats.imagesOptimized stats0)
                     (S (Stats.backupsCreated stats0)),
            None)
       | (w2, Some message) => (w2, stats0, Some message)
       end)
  /\ (Options.backupFiles options = false ->
      createBackup rt options filePath w stats0 = (w, stats0, None)).
Proof.
  split.
  - intros On w1 D.
    assert (E : ensureBackupDir rt w = (w1, None)).
    { unfold ensureBackupDir, backupDir.
      destruct D as [[-> ->]|[-> E]]; [reflexivity | exact E]. }
    unfold createBackup. rewrite On, E. cbn [negb].
    rewrite backupPath_name.
    now destruct (copyFileSync rt w1 filePath _) as [w2 [message|]].
  - intros Off. unfold createBackup. now rewrite Off.
Qed.

Lemma backup_name_witness :
  createBackup memoryRuntime Options.default (js "docs/a.md")
    (mkMemory [(js "docs/a.md", js "![A](a.png)")] []) (Stats.mk 3 4 3)
  = (mkMemory [(js "markdown-backup/a.md.2024-05-06T07-08-09.backup",
                js "![A](a.png)");
               (js "docs/a.md", js "![A](a.png)")]
              [js "./markdown-backup"],
     Stats.mk 3 4 4, None).
Proof.
  rewrite (proj1 (@backup_name memoryRuntime Options.default (js "docs/a.md")
                    (mkMemory [(js "docs/a.md", js "![A](a.png)")] [])
                    (Stats.mk 3 4 3))
                 eq_refl
                 (mkMemory [(js "docs/a.md", js "![A](a.png)")]
                           [js "./markdown-backup"]));
    [vm_compute; reflexivity | right; split; vm_compute; reflexivity].
Defined.
